(** * TapeView / TapeViewStack (tapeagents/view.py)

    A shallow embedding of the call-stack state machine that rebuilds, from
    the flat tape of steps, the frame every agent of the call chain sees.

    Python objects are modelled by value.  The steps are never mutated by
    the state machine, so sharing one step between several lists is not
    observable.  Every frame of a stack is an object of its own ([compute]
    creates each one with [TapeView(...)], and pydantic gives every instance
    its own [steps], [steps_by_kind] and [outputs_by_subagent]), so a
    mutation through [top] or [new_top] is a functional update of the last
    element of the stack.  The part "Frames as objects" at the end runs the
    same methods on references into a store of frame objects and proves
    that the frames read back by value follow this model. *)

From Stdlib Require Import ZArith Lia Ascii String.
From stdpp Require Import base strings list gmap.

Local Open Scope string_scope.
Local Open Scope list_scope.
Local Open Scope nat_scope.

(** ** Exceptions *)

Inductive Exn : Type :=
| ValueError
| IndexError
| KeyError.

(** ** String helpers used by the source *)

Module PyStr.

Definition slash : ascii := "/"%char.

(** [s.split("/")]: the list of segments, never empty. *)
Fixpoint split (s : string) : list string :=
  match s with
  | EmptyString => [EmptyString]
  | String c rest =>
      if Ascii.eqb c slash then EmptyString :: split rest
      else match split rest with
           | seg :: segs => String c seg :: segs
           | [] => [String c EmptyString]
           end
  end.

Fixpoint has_slash (s : string) : bool :=
  match s with
  | EmptyString => false
  | String c rest => Ascii.eqb c slash || has_slash rest
  end.

(** [s.rsplit("/", 1)[0]]: what precedes the last slash, or all of [s]
    when it holds no slash. *)
Fixpoint rsplit1_head (s : string) : string :=
  match s with
  | EmptyString => EmptyString
  | String c rest =>
      if has_slash rest then String c (rsplit1_head rest)
      else if Ascii.eqb c slash then EmptyString
      else String c rest
  end.

(** [l[1:]] *)
Definition drop_first {A} (l : list A) : list A := drop 1 l.

(** [==] on lists of strings *)
Fixpoint list_eqb (a b : list string) : bool :=
  match a, b with
  | [], [] => true
  | x :: a', y :: b' => String.eqb x y && list_eqb a' b'
  | _, _ => false
  end.

(** [l[i]] with Python's negative indices; [None] stands for IndexError. *)
Definition index {A} (l : list A) (i : Z) : option A :=
  let n := Z.of_nat (length l) in
  if (0 <=? i)%Z then l !! Z.to_nat i
  else if (- n <=? i)%Z then l !! Z.to_nat (n + i)
  else None.

End PyStr.

(** ** Insertion-ordered dictionaries

    [outputs_by_subagent] is read both by key and by position
    ([list(d.values())[i]]), so the order of insertion is part of its
    value: an association list, updated in place when the key is present
    and extended at the end otherwise. *)

Module PyDict.
Section Dict.
Context {V : Type}.

Definition t := list (string * V).

Fixpoint get (k : string) (d : t) : option V :=
  match d with
  | [] => None
  | (k', v) :: d' => if String.eqb k k' then Some v else get k d'
  end.

(** [d[k] = v] *)
Fixpoint set (k : string) (v : V) (d : t) : t :=
  match d with
  | [] => [(k, v)]
  | (k', v') :: d' =>
      if String.eqb k k' then (k', v) :: d' else (k', v') :: set k v d'
  end.

Definition keys (d : t) : list string := d.*1.
Definition values (d : t) : list V := d.*2.

(** The keys of a dictionary are pairwise distinct. *)
Definition wf (d : t) : Prop := NoDup (keys d).
End Dict.
Arguments t : clear implicits.
End PyDict.

(** ** Steps *)

(** Modelled from the spec: [tapeagents.core] (the classes [AgentStep],
    [Thought], [Jump] and [Observation]) is not part of the sources at hand.
    Following the data model of the specification every step carries a
    [kind]; an agent step carries [by] and [prompt_id]; [Thought] (the base
    of [Call], [Respond] and [Broadcast], declared in view.py) and [Jump]
    are agent steps; an [Observation] is not attributed to an agent.
    [Unsupported] stands for any step object that matches none of the
    classes the dispatch of [update] knows.  [payload] stands for the
    remaining fields of a step. *)
Inductive Step : Type :=
| Call (by_ prompt_id content agent_name : string)
| Respond (by_ prompt_id content : string)
| Broadcast (by_ prompt_id content from_ : string) (to : list string)
| Jump (by_ prompt_id : string) (next_node : Z)
| AgentStep (kind by_ prompt_id payload : string)
| Observation (kind payload : string)
| Unsupported (kind : string).

Definition kind (step : Step) : string :=
  match step with
  | Call _ _ _ _ => "call"
  | Respond _ _ _ => "return"
  | Broadcast _ _ _ _ _ => "broadcast"
  | Jump _ _ _ => "jump"
  | AgentStep k _ _ _ => k
  | Observation k _ => k
  | Unsupported k => k
  end.

(** [isinstance(step, AgentStep)] *)
Definition is_agent_step (step : Step) : bool :=
  match step with
  | Call _ _ _ _ | Respond _ _ _ | Broadcast _ _ _ _ _
  | Jump _ _ _ | AgentStep _ _ _ _ => true
  | Observation _ _ | Unsupported _ => false
  end.

Definition is_call (step : Step) : bool :=
  match step with Call _ _ _ _ => true | _ => false end.

Definition is_respond (step : Step) : bool :=
  match step with Respond _ _ _ => true | _ => false end.

Definition is_jump (step : Step) : bool :=
  match step with Jump _ _ _ => true | _ => false end.

Definition is_unsupported (step : Step) : bool :=
  match step with Unsupported _ => true | _ => false end.

(** [step.by] and [step.prompt_id]; they are read on agent steps only, the
    value on the other steps is never used. *)
Definition step_by (step : Step) : string :=
  match step with
  | Call b _ _ _ | Respond b _ _ | Broadcast b _ _ _ _
  | Jump b _ _ | AgentStep _ b _ _ => b
  | Observation _ _ | Unsupported _ => ""
  end.

Definition step_prompt_id (step : Step) : string :=
  match step with
  | Call _ p _ _ | Respond _ p _ | Broadcast _ p _ _ _
  | Jump _ p _ | AgentStep _ _ p _ => p
  | Observation _ _ | Unsupported _ => ""
  end.

(** ** TapeView *)

Record TapeView : Type := mkTapeView {
  agent_name : string;
  agent_full_name : string;
  steps : list Step;
  steps_by_kind : gmap string (list Step);
  next_node : Z;
  last_prompt_id : string;
  outputs_by_subagent : PyDict.t Step
}.

(** [TapeView(agent_name=..., agent_full_name=...)] *)
Definition new_view (name full_name : string) : TapeView :=
  mkTapeView name full_name [] ∅ 0 "" [].

Definition set_steps (l : list Step) (v : TapeView) : TapeView :=
  mkTapeView (agent_name v) (agent_full_name v) l (steps_by_kind v)
    (next_node v) (last_prompt_id v) (outputs_by_subagent v).

Definition set_steps_by_kind (m : gmap string (list Step)) (v : TapeView) : TapeView :=
  mkTapeView (agent_name v) (agent_full_name v) (steps v) m
    (next_node v) (last_prompt_id v) (outputs_by_subagent v).

Definition set_next_node (n : Z) (v : TapeView) : TapeView :=
  mkTapeView (agent_name v) (agent_full_name v) (steps v) (steps_by_kind v)
    n (last_prompt_id v) (outputs_by_subagent v).

Definition set_last_prompt_id (p : string) (v : TapeView) : TapeView :=
  mkTapeView (agent_name v) (agent_full_name v) (steps v) (steps_by_kind v)
    (next_node v) p (outputs_by_subagent v).

Definition set_output (name : string) (step : Step) (v : TapeView) : TapeView :=
  mkTapeView (agent_name v) (agent_full_name v) (steps v) (steps_by_kind v)
    (next_node v) (last_prompt_id v)
    (PyDict.set name step (outputs_by_subagent v)).

Definition add_step (step : Step) (v : TapeView) : TapeView :=
  let v1 := set_steps (steps v ++ [step]) v in
  let k := kind step in
  let by_kind :=
    match steps_by_kind v1 !! k with
    | None => <[k := []]> (steps_by_kind v1)
    | Some _ => steps_by_kind v1
    end in
  set_steps_by_kind (<[k := (by_kind !!! k) ++ [step]]> by_kind) v1.

(** The argument of [get_output]: [int | str]. *)
Inductive OutputRef : Type :=
| ByIndex (i : Z)
| ByName (name : string).

Definition get_output (ref : OutputRef) (v : TapeView) : Step + Exn :=
  match ref with
  | ByIndex i =>
      match PyStr.index (PyDict.values (outputs_by_subagent v)) i with
      | Some step => inl step
      | None => inr IndexError
      end
  | ByName name =>
      match PyDict.get name (outputs_by_subagent v) with
      | Some step => inl step
      | None => inr KeyError
      end
  end.

(** ** TapeViewStack *)

Record TapeViewStack : Type := mkStack {
  stack : list TapeView;
  messages_by_agent : gmap string (list Step)
}.

(** What a method leaves behind: the object after a normal return, or the
    exception together with the object as it is when the exception leaves
    the method. *)
Inductive Outcome : Type :=
| Ok (s : TapeViewStack)
| Raised (e : Exn) (s : TapeViewStack).

Definition depth (s : TapeViewStack) : nat := length (stack s).

(** [self.stack[-1]] *)
Definition top (s : TapeViewStack) : option TapeView := last (stack s).

(** A mutation of the frame [self.stack[-1]]. *)
Definition modify_top (f : TapeView → TapeView) (s : TapeViewStack) : TapeViewStack :=
  mkStack (alter f (pred (length (stack s))) (stack s)) (messages_by_agent s).

(** [self.stack.append(v)] *)
Definition push (v : TapeView) (s : TapeViewStack) : TapeViewStack :=
  mkStack (stack s ++ [v]) (messages_by_agent s).

(** [self.stack.pop()] *)
Definition pop (s : TapeViewStack) : TapeViewStack :=
  mkStack (removelast (stack s)) (messages_by_agent s).

(** [messages[key].append(step)] on a [defaultdict(list)]: a missing key
    reads as the empty list, which the access stores. *)
Definition append_message (key : string) (step : Step)
    (messages : gmap string (list Step)) : gmap string (list Step) :=
  <[key := (messages !!! key) ++ [step]]> messages.

(** [self.messages_by_agent[key].append(step)] *)
Definition route (key : string) (step : Step) (s : TapeViewStack) : TapeViewStack :=
  mkStack (stack s) (append_message key step (messages_by_agent s)).

(** [is_step_by_active_agent]; [frame] is [self.top], which every caller
    has read successfully before. *)
Definition is_step_by_active_agent (step : Step) (frame : TapeView) : bool :=
  if negb (is_agent_step step) then false
  else
    let parts_by := PyStr.split (step_by step) in
    let parts_frame_by := PyStr.split (agent_full_name frame) in
    PyStr.list_eqb (PyStr.drop_first parts_by) (PyStr.drop_first parts_frame_by).

Definition step_agent_name (step : Step) : string :=
  match step with Call _ _ _ name => name | _ => "" end.

Definition step_to (step : Step) : list string :=
  match step with Broadcast _ _ _ _ to => to | _ => [] end.

Definition step_next_node (step : Step) : Z :=
  match step with Jump _ _ n => n | _ => 0%Z end.

(** [a + "/" + b], also [f"{a}/{b}"] *)
Definition path_join (a b : string) : string :=
  String.append a (String.append "/" b).

Definition put_new_view_on_stack (step : Step) (s : TapeViewStack) : Outcome :=
  match top s with
  | None => Raised IndexError s
  | Some frame =>
      let s1 := modify_top (add_step step) s in
      let s2 :=
        push (new_view (step_agent_name step)
                (path_join (agent_full_name frame) (step_agent_name step))) s1 in
      let receiver := path_join (step_by step) (step_agent_name step) in
      let s3 := route (step_by step) step s2 in
      Ok (route receiver step s3)
  end.

Definition broadcast (step : Step) (s : TapeViewStack) : Outcome :=
  match top s with
  | None => Raised IndexError s
  | Some _ =>
      let s1 := modify_top (add_step step) s in
      Ok (foldl (λ acc to, route (path_join (step_by step) to) step acc)
            s1 (step_to step))
  end.

(** The loop of [pop_view_from_stack] over [reversed(top.steps)], [break]
    included.  [new_top] is the frame that is on top of the stack while the
    loop runs. *)
Fixpoint select_output (popped_name : string) (new_top : TapeView)
    (reversed_steps : list Step) (s : TapeViewStack) : TapeViewStack :=
  match reversed_steps with
  | [] => s
  | top_step :: rest =>
      if negb (is_call top_step || is_respond top_step)
         && negb (is_step_by_active_agent top_step new_top)
      then modify_top
             (λ v, set_output popped_name top_step (add_step top_step v)) s
      else select_output popped_name new_top rest s
  end.

Definition pop_view_from_stack (step : Step) (s : TapeViewStack) : Outcome :=
  match top s with
  | None => Raised IndexError s
  | Some popped =>
      let s1 := pop s in
      match top s1 with
      | None => Raised IndexError s1
      | Some _ =>
          let s2 := modify_top (λ v, set_next_node (next_node v + 1) v) s1 in
          match top s2 with
          | None => Raised IndexError s2
          | Some new_top =>
              let s3 :=
                select_output (agent_name popped) new_top
                  (rev (steps popped)) s2 in
              let receiver := PyStr.rsplit1_head (step_by step) in
              let s4 := route (step_by step) step s3 in
              let s5 := route receiver step s4 in
              Ok (modify_top (add_step step) s5)
          end
      end
  end.

(** The [match] of [update]: the first class that fits, in the order of
    the source. *)
Definition dispatch (step : Step) (s : TapeViewStack) : Outcome :=
  match step with
  | Call _ _ _ _ => put_new_view_on_stack step s
  | Broadcast _ _ _ _ _ => broadcast step s
  | Respond _ _ _ => pop_view_from_stack step s
  | Jump _ _ n => Ok (modify_top (set_next_node n) s)
  | AgentStep _ _ _ _ => Ok (modify_top (add_step step) s)
  | Observation _ _ => Ok (modify_top (add_step step) s)
  | Unsupported _ => Raised ValueError s
  end.

(** What [update] does after the [match]. *)
Definition count_node (step : Step) (s : TapeViewStack) : Outcome :=
  match top s with
  | None => Raised IndexError s
  | Some frame =>
      if is_step_by_active_agent step frame then
        let s1 :=
          if negb (is_jump step)
             && negb (String.eqb (step_prompt_id step) (last_prompt_id frame))
          then modify_top (λ v, set_next_node (next_node v + 1) v) s
          else s in
        Ok (modify_top (set_last_prompt_id (step_prompt_id step)) s1)
      else Ok s
  end.

Definition update (step : Step) (s : TapeViewStack) : Outcome :=
  match top s with
  | None => Raised IndexError s
  | Some _ =>
      match dispatch step s with
      | Raised e s' => Raised e s'
      | Ok s1 => count_node step s1
      end
  end.

(** ** Tapes, the cache and [compute] *)

(** A tape as [compute] sees it: its identity [id(tape)] and [tape.steps]. *)
Record Tape : Type := mkTape {
  tape_id : Z;
  tape_steps : list Step
}.

(** [TapeViewStack(stack=[TapeView(agent_name="root", agent_full_name="root")])] *)
Definition initial_stack : TapeViewStack :=
  mkStack [new_view "root" "root"] ∅.

(** [for step in tape.steps: stack.update(step)]; an exception ends the loop. *)
Fixpoint run_updates (l : list Step) (s : TapeViewStack) : Outcome :=
  match l with
  | [] => Ok s
  | step :: rest =>
      match update step s with
      | Ok s' => run_updates rest s'
      | Raised e s' => Raised e s'
      end
  end.

(** [compute] with the module-level [_view_stack_cache] threaded through:
    the result or the exception, and the cache afterwards. *)
Definition compute (tape : Tape) (cache : gmap Z TapeViewStack)
    : (TapeViewStack + Exn) * gmap Z TapeViewStack :=
  match cache !! tape_id tape with
  | Some cached_view_stack => (inl cached_view_stack, cache)
  | None =>
      match run_updates (tape_steps tape) initial_stack with
      | Ok s => (inl s, <[tape_id tape := s]> cache)
      | Raised e _ => (inr e, cache)
      end
  end.

(** ** Sanity checks of the string helpers *)

Example split_path : PyStr.split "root/Manager/Coder" = ["root"; "Manager"; "Coder"].
Proof. reflexivity. Qed.

Example split_empty : PyStr.split "" = [""].
Proof. reflexivity. Qed.

Example split_edges : PyStr.split "/a//" = [""; "a"; ""; ""].
Proof. reflexivity. Qed.

Example rsplit_path : PyStr.rsplit1_head "root/Manager/Coder" = "root/Manager".
Proof. reflexivity. Qed.

Example rsplit_no_slash : PyStr.rsplit1_head "root" = "root".
Proof. reflexivity. Qed.

Example rsplit_trailing : PyStr.rsplit1_head "a/b/" = "a/b".
Proof. reflexivity. Qed.

Example index_last_element : PyStr.index [10; 20; 30]%Z (-1) = Some 30%Z.
Proof. reflexivity. Qed.

Example index_past_the_ends :
  PyStr.index [10; 20; 30]%Z 3 = None ∧ PyStr.index [10; 20; 30]%Z (-4) = None.
Proof. split; reflexivity. Qed.

(** * Properties *)

(** ** The stack as a list that ends with its top *)

Section StackBasics.
Implicit Types (l : list TapeView) (x y : TapeView)
  (m : gmap string (list Step)) (s : TapeViewStack) (f : TapeView → TapeView).

Lemma top_snoc l x m : top (mkStack (l ++ [x]) m) = Some x.
Proof. unfold top; simpl. apply last_snoc. Qed.

Lemma top_nil m : top (mkStack [] m) = None.
Proof. reflexivity. Qed.

Lemma top_None s : top s = None ↔ stack s = [].
Proof. unfold top. apply last_None. Qed.

Lemma stack_snoc s : stack s ≠ [] → ∃ l x m, s = mkStack (l ++ [x]) m.
Proof.
  destruct s as [st m]; simpl. intros Hne.
  destruct (last st) as [x|] eqn:E.
  - apply last_Some in E as [l ->]. by exists l, x, m.
  - apply last_None in E. contradiction.
Qed.

Lemma list_snoc_cases l : l = [] ∨ ∃ l' x, l = l' ++ [x].
Proof.
  destruct (last l) as [x|] eqn:E.
  - right. apply last_Some in E as [l' ->]. by exists l', x.
  - left. by apply last_None.
Qed.

Lemma modify_top_snoc f l x m :
  modify_top f (mkStack (l ++ [x]) m) = mkStack (l ++ [f x]) m.
Proof.
  unfold modify_top; simpl. f_equal.
  rewrite length_app; simpl.
  replace (pred (length l + 1)) with (length l + 0) by lia.
  by rewrite alter_app_r.
Qed.

Lemma modify_top_nil f m : modify_top f (mkStack [] m) = mkStack [] m.
Proof. reflexivity. Qed.

Lemma pop_snoc l x m : pop (mkStack (l ++ [x]) m) = mkStack l m.
Proof. unfold pop; simpl. by rewrite removelast_last. Qed.

Lemma push_snoc l x m : push x (mkStack l m) = mkStack (l ++ [x]) m.
Proof. reflexivity. Qed.

Lemma route_messages key step l m :
  route key step (mkStack l m) = mkStack l (append_message key step m).
Proof. reflexivity. Qed.

Lemma depth_snoc l x m : depth (mkStack (l ++ [x]) m) = S (length l).
Proof. unfold depth; simpl. rewrite length_app; simpl. lia. Qed.
End StackBasics.

(** ** What one [update] does, kind by kind *)

(** The frame after the node counting at the end of [update]. *)
Definition counted (step : Step) (v : TapeView) : TapeView :=
  if is_step_by_active_agent step v then
    set_last_prompt_id (step_prompt_id step)
      (if negb (is_jump step)
          && negb (String.eqb (step_prompt_id step) (last_prompt_id v))
       then set_next_node (next_node v + 1) v else v)
  else v.

(** A step the reverse scan of a popped frame accepts as its output, when
    [caller] is the frame below. *)
Definition eligible (caller : TapeView) (step : Step) : bool :=
  negb (is_call step || is_respond step)
  && negb (is_step_by_active_agent step caller).

(** The caller's frame after the scan over the popped frame. *)
Definition with_output (popped caller : TapeView) : TapeView :=
  match find (eligible caller) (rev (steps popped)) with
  | Some out => set_output (agent_name popped) out (add_step out caller)
  | None => caller
  end.

(** The messages after a [Broadcast]. *)
Definition broadcast_messages (step : Step) (m : gmap string (list Step))
    : gmap string (list Step) :=
  foldl (λ acc to, append_message (path_join (step_by step) to) step acc)
    m (step_to step).

Section UpdateEquations.
Implicit Types (l : list TapeView) (x y : TapeView)
  (m : gmap string (list Step)) (s : TapeViewStack).

Lemma count_node_snoc step l x m :
  count_node step (mkStack (l ++ [x]) m) = Ok (mkStack (l ++ [counted step x]) m).
Proof.
  unfold count_node, counted. rewrite top_snoc.
  destruct (is_step_by_active_agent step x); [|done].
  destruct (negb (is_jump step) && _); by rewrite !modify_top_snoc.
Qed.

Lemma update_empty step m :
  update step (mkStack [] m) = Raised IndexError (mkStack [] m).
Proof. reflexivity. Qed.

Lemma update_unsupported k l x m :
  update (Unsupported k) (mkStack (l ++ [x]) m)
  = Raised ValueError (mkStack (l ++ [x]) m).
Proof. unfold update. by rewrite top_snoc. Qed.

Lemma update_jump b p n l x m :
  update (Jump b p n) (mkStack (l ++ [x]) m)
  = Ok (mkStack (l ++ [counted (Jump b p n) (set_next_node n x)]) m).
Proof.
  unfold update. rewrite top_snoc. simpl.
  by rewrite modify_top_snoc, count_node_snoc.
Qed.

Lemma update_agent_step k b p c l x m :
  update (AgentStep k b p c) (mkStack (l ++ [x]) m)
  = Ok (mkStack (l ++ [counted (AgentStep k b p c)
                         (add_step (AgentStep k b p c) x)]) m).
Proof.
  unfold update. rewrite top_snoc. simpl.
  by rewrite modify_top_snoc, count_node_snoc.
Qed.

Lemma update_observation k c l x m :
  update (Observation k c) (mkStack (l ++ [x]) m)
  = Ok (mkStack (l ++ [add_step (Observation k c) x]) m).
Proof.
  unfold update. rewrite top_snoc. simpl.
  by rewrite modify_top_snoc, count_node_snoc.
Qed.

Lemma update_call b p c n l x m :
  let step := Call b p c n in
  update step (mkStack (l ++ [x]) m)
  = Ok (mkStack
          (l ++ [add_step step x;
                 counted step (new_view n (path_join (agent_full_name x) n))])
          (append_message (path_join b n) step (append_message b step m))).
Proof.
  intros step. unfold update. rewrite top_snoc. simpl.
  unfold put_new_view_on_stack. rewrite top_snoc, modify_top_snoc. simpl.
  rewrite push_snoc, !route_messages, count_node_snoc.
  by rewrite <- app_assoc.
Qed.
End UpdateEquations.

Section UpdateEquationsRouting.
Implicit Types (l : list TapeView) (x y : TapeView)
  (m : gmap string (list Step)) (s : TapeViewStack).

Lemma foldl_route step b tos : ∀ l m,
  foldl (λ acc to, route (path_join b to) step acc) (mkStack l m) tos
  = mkStack l (foldl (λ acc to, append_message (path_join b to) step acc) m tos).
Proof.
  induction tos as [|to tos IH]; intros l m; simpl; [done|].
  by rewrite route_messages, IH.
Qed.

Lemma update_broadcast b p c f tos l x m :
  let step := Broadcast b p c f tos in
  update step (mkStack (l ++ [x]) m)
  = Ok (mkStack (l ++ [counted step (add_step step x)])
          (broadcast_messages step m)).
Proof.
  intros step. unfold update. rewrite top_snoc. simpl.
  unfold broadcast. rewrite top_snoc, modify_top_snoc. simpl.
  by rewrite foldl_route, count_node_snoc.
Qed.

Lemma select_output_snoc name caller rsteps l y m :
  select_output name caller rsteps (mkStack (l ++ [y]) m)
  = mkStack
      (l ++ [match find (eligible caller) rsteps with
             | Some out => set_output name out (add_step out y)
             | None => y
             end]) m.
Proof.
  induction rsteps as [|top_step rest IH]; simpl; [done|].
  unfold eligible at 1.
  destruct (negb (is_call top_step || is_respond top_step)
            && negb (is_step_by_active_agent top_step caller)).
  - by rewrite modify_top_snoc.
  - apply IH.
Qed.

Lemma update_respond_root b p c x m :
  update (Respond b p c) (mkStack [x] m) = Raised IndexError (mkStack [] m).
Proof. reflexivity. Qed.

Lemma update_respond b p c l y x m :
  let step := Respond b p c in
  let caller := set_next_node (next_node y + 1) y in
  update step (mkStack (l ++ [y; x]) m)
  = Ok (mkStack
          (l ++ [counted step (add_step step (with_output x caller))])
          (append_message (PyStr.rsplit1_head b) step
             (append_message b step m))).
Proof.
  intros step caller.
  replace (l ++ [y; x]) with ((l ++ [y]) ++ [x]) by (by rewrite <- app_assoc).
  unfold update. rewrite top_snoc. simpl.
  unfold pop_view_from_stack.
  rewrite top_snoc, pop_snoc, top_snoc, modify_top_snoc, top_snoc.
  rewrite select_output_snoc, !route_messages, modify_top_snoc.
  by rewrite count_node_snoc.
Qed.
End UpdateEquationsRouting.

(** ** The fold of [update] over the steps *)

Lemma run_updates_app pre post s :
  run_updates (pre ++ post) s
  = match run_updates pre s with
    | Ok s' => run_updates post s'
    | Raised e s' => Raised e s'
    end.
Proof.
  revert s. induction pre as [|step pre IH]; intros s; simpl; [done|].
  destruct (update step s); [apply IH | done].
Qed.

Lemma run_updates_snoc pre step s s' :
  run_updates pre s = Ok s' →
  run_updates (pre ++ [step]) s = update step s'.
Proof.
  intros H. rewrite run_updates_app, H. simpl. by destruct (update step s').
Qed.

(** A successful [update] starts from a stack that is not empty and leaves
    one. *)
Lemma update_ok_nonempty step s s' :
  update step s = Ok s' → stack s ≠ [] ∧ stack s' ≠ [].
Proof.
  intros H. assert (Hne : stack s ≠ []).
  { intros E. destruct s as [st m]; simpl in E; subst. discriminate. }
  split; [done|].
  destruct (stack_snoc s Hne) as (l & x & m & ->).
  destruct step.
  - rewrite update_call in H. injection H as <-. simpl. by destruct l.
  - destruct (list_snoc_cases l) as [->|(l' & y & ->)].
    + simpl in H. discriminate.
    + rewrite <- app_assoc in H. simpl in H.
      rewrite update_respond in H. injection H as <-. simpl. by destruct l'.
  - rewrite update_broadcast in H. injection H as <-. simpl. by destruct l.
  - rewrite update_jump in H. injection H as <-. simpl. by destruct l.
  - rewrite update_agent_step in H. injection H as <-. simpl. by destruct l.
  - rewrite update_observation in H. injection H as <-. simpl. by destruct l.
  - rewrite update_unsupported in H. discriminate.
Qed.

(** ** Depth of the stack *)

Definition count_calls (l : list Step) : nat := length (filter (λ x, is_call x = true) l).
Definition count_responds (l : list Step) : nat := length (filter (λ x, is_respond x = true) l).

(** By how much a step moves the depth. *)
Definition depth_change (step : Step) : Z :=
  if is_call step then 1 else if is_respond step then -1 else 0.

(** The sequences the fold accepts from depth [d]: no step the dispatch
    does not know, and no [Respond] while only one frame is left. *)
Fixpoint well_nested (d : nat) (l : list Step) : bool :=
  match l with
  | [] => true
  | step :: rest =>
      negb (is_unsupported step)
      && (if is_call step then well_nested (S d) rest
          else if is_respond step then (2 <=? d)%nat && well_nested (pred d) rest
          else well_nested d rest)
  end.

(** Every outcome of one [update] on a stack that is not empty. *)
Lemma update_outcome step s :
  stack s ≠ [] →
  match update step s with
  | Ok s' =>
      is_unsupported step = false
      ∧ (is_respond step = true → 2 ≤ depth s)
      ∧ Z.of_nat (depth s') = (Z.of_nat (depth s) + depth_change step)%Z
      ∧ 1 ≤ depth s'
  | Raised e s' =>
      (is_unsupported step = true ∧ e = ValueError ∧ s' = s)
      ∨ (is_respond step = true ∧ depth s = 1 ∧ e = IndexError ∧ s' = pop s)
  end.
Proof.
  intros Hne. destruct (stack_snoc s Hne) as (l & x & m & ->).
  destruct step.
  - rewrite update_call. unfold depth, depth_change; simpl.
    rewrite !length_app; simpl. repeat split; try done; lia.
  - destruct (list_snoc_cases l) as [->|(l' & y & ->)].
    + simpl. right. by repeat split.
    + rewrite <- app_assoc. simpl. rewrite update_respond.
      unfold depth, depth_change; simpl. rewrite !length_app; simpl.
      repeat split; try done; lia.
  - rewrite update_broadcast. unfold depth, depth_change; simpl.
    rewrite !length_app; simpl. repeat split; try done; lia.
  - rewrite update_jump. unfold depth, depth_change; simpl.
    rewrite !length_app; simpl. repeat split; try done; lia.
  - rewrite update_agent_step. unfold depth, depth_change; simpl.
    rewrite !length_app; simpl. repeat split; try done; lia.
  - rewrite update_observation. unfold depth, depth_change; simpl.
    rewrite !length_app; simpl. repeat split; try done; lia.
  - rewrite update_unsupported. left. by repeat split.
Qed.

Lemma count_calls_cons step l :
  count_calls (step :: l) = (if is_call step then 1 else 0) + count_calls l.
Proof.
  unfold count_calls. rewrite filter_cons.
  destruct (is_call step); by case_decide.
Qed.

Lemma count_responds_cons step l :
  count_responds (step :: l) = (if is_respond step then 1 else 0) + count_responds l.
Proof.
  unfold count_responds. rewrite filter_cons.
  destruct (is_respond step); by case_decide.
Qed.

Lemma depth_change_counts step :
  depth_change step
  = (Z.of_nat (if is_call step then 1 else 0)
     - Z.of_nat (if is_respond step then 1 else 0))%Z.
Proof. by destruct step. Qed.

Lemma run_updates_depth l : ∀ s s',
  stack s ≠ [] →
  run_updates l s = Ok s' →
  Z.of_nat (depth s')
  = (Z.of_nat (depth s) + Z.of_nat (count_calls l) - Z.of_nat (count_responds l))%Z
  ∧ 1 ≤ depth s'.
Proof.
  induction l as [|step l IH]; intros s s' Hne H; simpl in H.
  - injection H as <-. unfold count_calls, count_responds; simpl.
    split; [lia|]. unfold depth. destruct (stack s); [done|simpl; lia].
  - pose proof (update_outcome step s Hne) as Hout.
    destruct (update step s) as [s1|e s1] eqn:E; [|discriminate].
    destruct Hout as (_ & _ & Hd & _).
    apply update_ok_nonempty in E as [_ Hne1].
    destruct (IH s1 s' Hne1 H) as [Hd' Hge]. split; [|done].
    rewrite count_calls_cons, count_responds_cons.
    rewrite depth_change_counts in Hd. lia.
Qed.

(** The fold returns exactly on the well nested sequences. *)
Lemma run_updates_ok_iff l : ∀ s,
  stack s ≠ [] →
  (∃ s', run_updates l s = Ok s') ↔ well_nested (depth s) l = true.
Proof.
  induction l as [|step l IH]; intros s Hne; simpl.
  - split; [done | by exists s].
  - pose proof (update_outcome step s Hne) as Hout.
    destruct (update step s) as [s1|e s1] eqn:E.
    + destruct Hout as (Hu & Hr & Hd & _).
      apply update_ok_nonempty in E as [_ Hne1].
      rewrite (IH s1 Hne1), Hu. simpl. unfold depth_change in Hd.
      destruct (is_call step).
      * by replace (depth s1) with (S (depth s)) by lia.
      * destruct (is_respond step).
        -- specialize (Hr eq_refl).
           replace (depth s1) with (pred (depth s)) by lia.
           destruct (depth s) as [|[|d]]; [lia | lia | done].
        -- by replace (depth s1) with (depth s) by lia.
    + split; [by intros [? ?]|]. intros Hw.
      destruct Hout as [(Hu & _)|(Hr & Hd & _)].
      * by rewrite Hu in Hw.
      * rewrite Hd in Hw. by destruct step.
Qed.

Lemma initial_stack_nonempty : stack initial_stack ≠ [].
Proof. done. Qed.

(** C1.  Balance invariant.  Whenever the fold over [steps] from the stack
    seeded with the root frame returns, every prefix of [steps] has been
    processed to a stack whose depth is 1 plus the number of [Call]s minus
    the number of [Respond]s of the prefix, and is at least 1; the step
    that follows the prefix moves the depth by exactly one frame up when it
    is a [Call], one frame down when it is a [Respond], and not at all
    otherwise. *)
Theorem balance_invariant (steps : list Step) (s : TapeViewStack) :
  run_updates steps initial_stack = Ok s →
  ∀ i : nat,
    ∃ si,
      run_updates (take i steps) initial_stack = Ok si
      ∧ Z.of_nat (depth si)
        = (1 + (Z.of_nat (count_calls (take i steps))
                - Z.of_nat (count_responds (take i steps))))%Z
      ∧ 1 ≤ depth si
      ∧ ∀ step, steps !! i = Some step →
          ∃ sj, update step si = Ok sj
            ∧ depth sj = (if is_call step then S (depth si)
                          else if is_respond step then pred (depth si)
                          else depth si).
Proof.
  intros Hrun i.
  rewrite <- (take_drop i steps) in Hrun. rewrite run_updates_app in Hrun.
  destruct (run_updates (take i steps) initial_stack) as [si|e si] eqn:Ei;
    [|discriminate].
  exists si. split; [done|].
  destruct (run_updates_depth _ _ _ initial_stack_nonempty Ei) as [Hd Hge].
  split; [unfold depth in *; simpl in *; lia|]. split; [done|].
  intros step Hstep.
  rewrite (drop_S _ _ _ Hstep) in Hrun. simpl in Hrun.
  assert (Hne : stack si ≠ []).
  { unfold depth in Hge. destruct (stack si); [simpl in Hge; lia|done]. }
  pose proof (update_outcome step si Hne) as Hout.
  destruct (update step si) as [sj|e sj]; [|discriminate].
  exists sj. split; [done|].
  destruct Hout as (_ & Hr & Hdj & _). unfold depth_change in Hdj.
  destruct (is_call step); [lia|].
  destruct (is_respond step); lia.
Qed.

Lemma balance_invariant_witness :
  ∃ si,
    run_updates
      (take 2 [Call "root" "" "" "B"; Respond "root/B" "" "";
               Observation "obs" "x"]) initial_stack = Ok si
    ∧ depth si = 1.
Proof.
  destruct (balance_invariant
              [Call "root" "" "" "B"; Respond "root/B" "" "";
               Observation "obs" "x"]
              (match run_updates
                       [Call "root" "" "" "B"; Respond "root/B" "" "";
                        Observation "obs" "x"] initial_stack with
               | Ok s => s
               | Raised _ s => s
               end) ltac:(vm_compute; reflexivity) 2)
    as (si & Hrun & Hd & _).
  exists si. split; [exact Hrun|].
  change (count_calls _) with 1 in Hd. change (count_responds _) with 1 in Hd.
  lia.
Defined.

(** ** Aborted folds *)

(** When one [update] raises, on a stack that is not empty. *)
Lemma update_raises_iff step s e st :
  stack s ≠ [] →
  update step s = Raised e st
  ↔ (is_respond step = true ∧ depth s = 1 ∧ e = IndexError ∧ st = pop s)
    ∨ (is_unsupported step = true ∧ e = ValueError ∧ st = s).
Proof.
  intros Hne. pose proof (update_outcome step s Hne) as Hout. split.
  - intros H. rewrite H in Hout. tauto.
  - destruct (stack_snoc s Hne) as (l & x & m & ->).
    intros [(Hr & Hd & -> & ->)|(Hu & -> & ->)].
    + destruct step; try discriminate.
      unfold depth in Hd; simpl in Hd. rewrite length_app in Hd; simpl in Hd.
      destruct l; [|simpl in Hd; lia]. reflexivity.
    + destruct step; try discriminate. apply update_unsupported.
Qed.

Lemma run_updates_nonempty l : ∀ s s',
  stack s ≠ [] → run_updates l s = Ok s' → stack s' ≠ [].
Proof.
  induction l as [|step l IH]; intros s s' Hne H; simpl in H.
  - by injection H as <-.
  - destruct (update step s) as [s1|e s1] eqn:E; [|discriminate].
    apply update_ok_nonempty in E as [_ Hne1]. by apply (IH s1).
Qed.

(** C6.  Malformed sequences abort.  On a stack that the fold has reached
    from the root frame, [update] raises in exactly two cases: a [Respond]
    while only the root frame is left (IndexError, raised after the list
    of frames has been emptied) and a step the dispatch does not know
    (ValueError).  The exception ends the fold: no later step is
    processed, and [compute] hands the exception on and caches nothing. *)
Theorem malformed_sequences_abort
    (pre : list Step) (step : Step) (post : list Step) (si : TapeViewStack) :
  run_updates pre initial_stack = Ok si →
  (∀ e st,
     update step si = Raised e st
     ↔ (is_respond step = true ∧ depth si = 1 ∧ e = IndexError ∧ st = pop si)
       ∨ (is_unsupported step = true ∧ e = ValueError ∧ st = si))
  ∧ (∀ e st,
       update step si = Raised e st →
       run_updates (pre ++ step :: post) initial_stack = Raised e st
       ∧ ∀ id cache,
           cache !! id = None →
           compute (mkTape id (pre ++ step :: post)) cache = (inr e, cache)).
Proof.
  intros Hpre.
  pose proof (run_updates_nonempty _ _ _ initial_stack_nonempty Hpre) as Hne.
  split.
  - intros e st. by apply update_raises_iff.
  - intros e st Hup.
    assert (Hrun : run_updates (pre ++ step :: post) initial_stack = Raised e st).
    { rewrite run_updates_app, Hpre. simpl. by rewrite Hup. }
    split; [done|]. intros id cache Hmiss.
    unfold compute; simpl. by rewrite Hmiss, Hrun.
Qed.

Lemma malformed_sequences_abort_witness :
  run_updates
    ([Call "root" "" "" "B"; Respond "root/B" "" ""]
       ++ Respond "root" "" "" :: [Observation "obs" "late"]) initial_stack
  = Raised IndexError
      (pop (match run_updates [Call "root" "" "" "B"; Respond "root/B" "" ""]
                    initial_stack with
            | Ok s => s
            | Raised _ s => s
            end)).
Proof.
  pose (si := match run_updates [Call "root" "" "" "B"; Respond "root/B" "" ""]
                      initial_stack with
              | Ok s => s
              | Raised _ s => s
              end).
  destruct (malformed_sequences_abort
              [Call "root" "" "" "B"; Respond "root/B" "" ""]
              (Respond "root" "" "") [Observation "obs" "late"] si
              ltac:(vm_compute; reflexivity)) as [Hiff Habort].
  apply (Habort IndexError (pop si)).
  apply Hiff. left. repeat split; vm_compute; reflexivity.
Defined.

(** ** What [add_step] and the node counting leave alone *)

Lemma add_step_steps step v : steps (add_step step v) = steps v ++ [step].
Proof. reflexivity. Qed.

Lemma add_step_steps_by_kind step v :
  steps_by_kind (add_step step v)
  = <[kind step := (steps_by_kind v !!! kind step) ++ [step]]> (steps_by_kind v).
Proof.
  unfold add_step; simpl.
  destruct (steps_by_kind v !! kind step) as [old|] eqn:E; [done|].
  rewrite lookup_total_insert_eq, insert_insert_eq.
  by rewrite (lookup_total_alt (steps_by_kind v)), E.
Qed.

Lemma counted_steps step v : steps (counted step v) = steps v.
Proof.
  unfold counted. destruct (is_step_by_active_agent step v); [|done].
  by destruct (negb (is_jump step) && _).
Qed.

Lemma counted_steps_by_kind step v :
  steps_by_kind (counted step v) = steps_by_kind v.
Proof.
  unfold counted. destruct (is_step_by_active_agent step v); [|done].
  by destruct (negb (is_jump step) && _).
Qed.

Lemma counted_outputs step v :
  outputs_by_subagent (counted step v) = outputs_by_subagent v.
Proof.
  unfold counted. destruct (is_step_by_active_agent step v); [|done].
  by destruct (negb (is_jump step) && _).
Qed.

Lemma counted_names step v :
  agent_name (counted step v) = agent_name v
  ∧ agent_full_name (counted step v) = agent_full_name v.
Proof.
  unfold counted. destruct (is_step_by_active_agent step v); [|done].
  by destruct (negb (is_jump step) && _).
Qed.

Lemma counted_jump_next_node b p n v :
  next_node (counted (Jump b p n) v) = next_node v.
Proof.
  unfold counted. by destruct (is_step_by_active_agent _ v).
Qed.

(** ** No [Jump] is ever recorded *)

Definition no_jump (l : list Step) : Prop := Forall (λ x, is_jump x = false) l.

Definition jump_free_view (v : TapeView) : Prop :=
  no_jump (steps v) ∧ map_Forall (λ _ l, no_jump l) (steps_by_kind v).

Definition jump_free (s : TapeViewStack) : Prop := Forall jump_free_view (stack s).

Lemma jump_free_new_view name full : jump_free_view (new_view name full).
Proof. split; [constructor | apply map_Forall_empty]. Qed.

Lemma jump_free_add_step step v :
  is_jump step = false → jump_free_view v → jump_free_view (add_step step v).
Proof.
  intros Hstep [Hs Hk]. split.
  - rewrite add_step_steps. apply Forall_app. split; [done|]. by constructor.
  - rewrite add_step_steps_by_kind. apply map_Forall_insert_2; [|done].
    apply Forall_app. split; [|by constructor].
    rewrite lookup_total_alt.
    destruct (steps_by_kind v !! kind step) as [old|] eqn:E; simpl.
    + by apply (Hk _ _ E).
    + constructor.
Qed.

Lemma jump_free_counted step v : jump_free_view v → jump_free_view (counted step v).
Proof.
  intros [Hs Hk]. split.
  - by rewrite counted_steps.
  - by rewrite counted_steps_by_kind.
Qed.

Lemma jump_free_with_output popped caller :
  jump_free_view popped → jump_free_view caller →
  jump_free_view (with_output popped caller).
Proof.
  intros [Hp _] Hc. unfold with_output.
  destruct (find (eligible caller) (rev (steps popped))) as [out|] eqn:E; [|done].
  apply find_some in E as [Hin _].
  apply in_rev, list_elem_of_In in Hin.
  assert (Hout : is_jump out = false).
  { unfold no_jump in Hp. rewrite Forall_forall in Hp. by apply Hp. }
  by apply (jump_free_add_step out caller Hout) in Hc.
Qed.

Lemma update_jump_free step s s' :
  jump_free s → update step s = Ok s' → jump_free s'.
Proof.
  intros Hfree H. pose proof (update_ok_nonempty _ _ _ H) as [Hne _].
  destruct (stack_snoc s Hne) as (l & x & m & ->).
  unfold jump_free in *; simpl in *.
  apply Forall_app in Hfree as [Hl Hx]. rewrite Forall_singleton in Hx.
  destruct step.
  - rewrite update_call in H. injection H as <-. simpl.
    apply Forall_app. split; [done|].
    apply Forall_cons; split; [|apply Forall_singleton].
    + by apply jump_free_add_step.
    + apply jump_free_counted, jump_free_new_view.
  - destruct (list_snoc_cases l) as [->|(l' & y & ->)]; [discriminate|].
    rewrite <- app_assoc in H. simpl in H. rewrite update_respond in H.
    injection H as <-. simpl.
    apply Forall_app in Hl as [Hl' Hy]. rewrite Forall_singleton in Hy.
    apply Forall_app. split; [done|]. apply Forall_singleton.
    apply jump_free_counted, jump_free_add_step; [done|].
    by apply jump_free_with_output.
  - rewrite update_broadcast in H. injection H as <-. simpl.
    apply Forall_app. split; [done|]. apply Forall_singleton.
    by apply jump_free_counted, jump_free_add_step.
  - rewrite update_jump in H. injection H as <-. simpl.
    apply Forall_app. split; [done|]. apply Forall_singleton.
    by apply jump_free_counted.
  - rewrite update_agent_step in H. injection H as <-. simpl.
    apply Forall_app. split; [done|]. apply Forall_singleton.
    by apply jump_free_counted, jump_free_add_step.
  - rewrite update_observation in H. injection H as <-. simpl.
    apply Forall_app. split; [done|]. apply Forall_singleton.
    by apply jump_free_add_step.
  - rewrite update_unsupported in H. discriminate.
Qed.

Lemma run_updates_jump_free l : ∀ s s',
  jump_free s → run_updates l s = Ok s' → jump_free s'.
Proof.
  induction l as [|step l IH]; intros s s' Hfree H; simpl in H.
  - by injection H as <-.
  - destruct (update step s) as [s1|e s1] eqn:E; [|discriminate].
    apply (IH s1); [|done]. by apply (update_jump_free step s).
Qed.

Lemma initial_stack_jump_free : jump_free initial_stack.
Proof. apply Forall_singleton, jump_free_new_view. Qed.

(** C9.  Jump leaves the log untouched.  On every stack that is not empty
    (the stack of the state machine never is), [update] with a [Jump]
    returns, sets the [next_node] of the top frame to the [next_node] of
    the step, and leaves the depth, [messages_by_agent] and the [steps] and
    [steps_by_kind] of every frame as they were.  Consequently no frame of
    a stack computed from the root frame holds a [Jump], neither in
    [steps] nor in [steps_by_kind]. *)
Theorem jump_leaves_log_untouched :
  (∀ (s : TapeViewStack) (b p : string) (n : Z),
     stack s ≠ [] →
     ∃ s',
       update (Jump b p n) s = Ok s'
       ∧ next_node <$> top s' = Some n
       ∧ depth s' = depth s
       ∧ messages_by_agent s' = messages_by_agent s
       ∧ steps <$> stack s' = steps <$> stack s
       ∧ steps_by_kind <$> stack s' = steps_by_kind <$> stack s)
  ∧ (∀ (l : list Step) (s : TapeViewStack),
       run_updates l initial_stack = Ok s →
       ∀ v, v ∈ stack s →
         (∀ x, x ∈ steps v → is_jump x = false)
         ∧ (∀ k recorded x,
              steps_by_kind v !! k = Some recorded → x ∈ recorded →
              is_jump x = false)).
Proof.
  split.
  - intros s b p n Hne. destruct (stack_snoc s Hne) as (l & x & m & ->).
    eexists. split; [apply update_jump|].
    rewrite top_snoc. unfold depth; simpl.
    rewrite counted_jump_next_node, !length_app, !fmap_app; simpl.
    by rewrite counted_steps, counted_steps_by_kind.
  - intros l s Hrun v Hv.
    pose proof (run_updates_jump_free _ _ _ initial_stack_jump_free Hrun) as Hfree.
    unfold jump_free in Hfree. rewrite Forall_forall in Hfree.
    destruct (Hfree v Hv) as [Hs Hk]. split.
    + intros x Hx. unfold no_jump in Hs. rewrite Forall_forall in Hs. by apply Hs.
    + intros k recorded x Hlook Hx. specialize (Hk k recorded Hlook).
      unfold no_jump in Hk. rewrite Forall_forall in Hk. by apply Hk.
Qed.

Lemma jump_leaves_log_untouched_witness :
  (∃ s',
     update (Jump "root" "p1" 7) initial_stack = Ok s'
     ∧ next_node <$> top s' = Some 7%Z
     ∧ depth s' = depth initial_stack
     ∧ messages_by_agent s' = messages_by_agent initial_stack
     ∧ steps <$> stack s' = steps <$> stack initial_stack
     ∧ steps_by_kind <$> stack s' = steps_by_kind <$> stack initial_stack)
  ∧ (∀ x, x ∈ steps (counted (Jump "root" "p1" 7)
                       (set_next_node 7 (new_view "root" "root"))) →
          is_jump x = false).
Proof.
  split.
  - apply (proj1 jump_leaves_log_untouched initial_stack "root" "p1" 7%Z).
    simpl. discriminate.
  - apply (proj2 jump_leaves_log_untouched [Jump "root" "p1" 7]
             (mkStack [counted (Jump "root" "p1" 7)
                         (set_next_node 7 (new_view "root" "root"))] ∅)
             ltac:(reflexivity)).
    simpl. apply elem_of_cons. by left.
Defined.

(** ** Routing *)

Lemma append_message_lookup_eq key step (m : gmap string (list Step)) :
  append_message key step m !!! key = (m !!! key) ++ [step].
Proof. unfold append_message. by rewrite lookup_total_insert_eq. Qed.

Lemma append_message_lookup_ne key key' step (m : gmap string (list Step)) :
  key ≠ key' → append_message key step m !! key' = m !! key'.
Proof. intros Hne. unfold append_message. by rewrite lookup_insert_ne. Qed.

Lemma append_message_lookup_total_ne key key' step (m : gmap string (list Step)) :
  key ≠ key' → append_message key step m !!! key' = m !!! key'.
Proof.
  intros Hne. by rewrite !lookup_total_alt, append_message_lookup_ne.
Qed.

Lemma path_join_inj a b b' : path_join a b = path_join a b' → b = b'.
Proof.
  unfold path_join. induction a as [|ch a IH]; simpl; intros H.
  - by injection H.
  - injection H as H. by apply IH.
Qed.

(** C5.  Broadcast is non-blocking.  On every stack that is not empty,
    [update] with a [Broadcast] whose [to] is ["X", "Y"] returns; the depth
    is unchanged; the frames below the top are untouched; the top frame is
    still the frame of the same agent and has the step recorded at the end
    of its [steps] and under its kind; the step is appended to
    [messages_by_agent] under [by + "/X"] and under [by + "/Y"], where [by]
    is the path of the sender, and no other route changes. *)
Theorem broadcast_is_non_blocking (s : TapeViewStack) (b p c f : string) :
  stack s ≠ [] →
  let step := Broadcast b p c f ["X"; "Y"] in
  ∃ s' frame frame',
    update step s = Ok s'
    ∧ top s = Some frame
    ∧ top s' = Some frame'
    ∧ depth s' = depth s
    ∧ removelast (stack s') = removelast (stack s)
    ∧ agent_name frame' = agent_name frame
    ∧ agent_full_name frame' = agent_full_name frame
    ∧ steps frame' = steps frame ++ [step]
    ∧ steps_by_kind frame' !!! "broadcast"
      = (steps_by_kind frame !!! "broadcast") ++ [step]
    ∧ messages_by_agent s' !!! path_join b "X"
      = (messages_by_agent s !!! path_join b "X") ++ [step]
    ∧ messages_by_agent s' !!! path_join b "Y"
      = (messages_by_agent s !!! path_join b "Y") ++ [step]
    ∧ ∀ key, key ≠ path_join b "X" → key ≠ path_join b "Y" →
        messages_by_agent s' !! key = messages_by_agent s !! key.
Proof.
  intros Hne step. destruct (stack_snoc s Hne) as (l & x & m & ->).
  assert (Hxy : path_join b "X" ≠ path_join b "Y").
  { intros E. apply path_join_inj in E. discriminate. }
  eexists _, x, _. split; [apply update_broadcast|].
  rewrite !top_snoc. unfold depth; simpl. rewrite !removelast_last.
  rewrite !length_app; simpl.
  destruct (counted_names step (add_step step x)) as [-> ->].
  rewrite counted_steps, counted_steps_by_kind, add_step_steps_by_kind.
  unfold broadcast_messages; simpl.
  repeat split; try done.
  - by rewrite lookup_total_insert_eq.
  - rewrite append_message_lookup_total_ne by done.
    apply append_message_lookup_eq.
  - rewrite append_message_lookup_eq.
    by rewrite append_message_lookup_total_ne.
  - intros key HX HY. by rewrite !append_message_lookup_ne.
Qed.

Lemma broadcast_is_non_blocking_witness :
  ∃ s',
    update (Broadcast "root" "p1" "hello" "root" ["X"; "Y"]) initial_stack = Ok s'
    ∧ depth s' = 1
    ∧ messages_by_agent s' !!! "root/X"
      = [Broadcast "root" "p1" "hello" "root" ["X"; "Y"]]
    ∧ messages_by_agent s' !!! "root/Y"
      = [Broadcast "root" "p1" "hello" "root" ["X"; "Y"]].
Proof.
  destruct (broadcast_is_non_blocking initial_stack "root" "p1" "hello" "root"
              ltac:(simpl; discriminate))
    as (s' & frame & frame' & Hup & _ & _ & Hd & _ & _ & _ & _ & _ & HX & HY & _).
  exists s'. repeat split; [exact Hup | exact Hd | exact HX | exact HY].
Defined.

(** ** The output of a popped frame *)

Lemma eligible_set_next_node n caller step :
  eligible (set_next_node n caller) step = eligible caller step.
Proof. reflexivity. Qed.

(** The reverse scan stops at the last eligible step. *)
Lemma find_last_eligible caller before out after :
  eligible caller out = true →
  Forall (λ x, eligible caller x = false) after →
  find (eligible caller) (rev (before ++ out :: after)) = Some out.
Proof.
  intros Hout Hafter. rewrite rev_app_distr. simpl. rewrite <- app_assoc. simpl.
  apply Forall_rev in Hafter.
  induction Hafter as [|x rest Hx _ IH]; simpl.
  - by rewrite Hout.
  - by rewrite Hx.
Qed.

Lemma find_no_eligible caller l :
  Forall (λ x, eligible caller x = false) l →
  find (eligible caller) (rev l) = None.
Proof.
  intros H. apply Forall_rev in H.
  induction H as [|x rest Hx _ IH]; simpl; [done|]. by rewrite Hx.
Qed.

Lemma dict_get_set_eq {V} k (v : V) d : PyDict.get k (PyDict.set k v d) = Some v.
Proof.
  induction d as [|[k' v'] d IH]; simpl.
  - by rewrite String.eqb_refl.
  - destruct (String.eqb k k') eqn:E; simpl; rewrite E; [done | apply IH].
Qed.

Lemma dict_get_set_ne {V} k k' (v : V) d :
  k ≠ k' → PyDict.get k' (PyDict.set k v d) = PyDict.get k' d.
Proof.
  intros Hne. induction d as [|[k0 v0] d IH]; simpl.
  - destruct (String.eqb k' k) eqn:E; [|done].
    apply String.eqb_eq in E. congruence.
  - destruct (String.eqb k k0) eqn:E; simpl.
    + apply String.eqb_eq in E as ->.
      destruct (String.eqb k' k0) eqn:E'; [|done].
      apply String.eqb_eq in E'. congruence.
    + by rewrite IH.
Qed.

Lemma last_routed b step (m : gmap string (list Step)) :
  let m' := append_message (PyStr.rsplit1_head b) step (append_message b step m) in
  last (m' !!! b) = Some step ∧ last (m' !!! PyStr.rsplit1_head b) = Some step.
Proof.
  intros m'. subst m'. split.
  - destruct (decide (PyStr.rsplit1_head b = b)) as [->|Hne].
    + rewrite append_message_lookup_eq. apply last_snoc.
    + rewrite append_message_lookup_total_ne by done.
      rewrite append_message_lookup_eq. apply last_snoc.
  - rewrite append_message_lookup_eq. apply last_snoc.
Qed.

Section Respond.
Variables (s : TapeViewStack) (below : list TapeView) (caller popped : TapeView).
Variables (b p c : string).
Hypothesis frames : stack s = below ++ [caller; popped].

Let step := Respond b p c.

(** What [update] leaves after a [Respond], in terms of the frame
    [with_output] computes. *)
Lemma update_respond_frames :
  update step s
  = Ok (mkStack
          (below ++ [counted step
                       (add_step step
                          (with_output popped
                             (set_next_node (next_node caller + 1) caller)))])
          (append_message (PyStr.rsplit1_head b) step
             (append_message b step (messages_by_agent s)))).
Proof.
  destruct s as [st m]. simpl in frames. subst st. apply update_respond.
Qed.

(** The output of a popped frame in terms of what the scan accepts.  Let
    the two topmost frames be [caller] and [popped], and let [out] be the
    last step of [popped] that the scan accepts.  Then [update] with a
    [Respond] returns, [popped] is gone, and [out] is what the caller's
    frame holds under the name of [popped] and what was appended to its
    [steps], just before the [Respond]. *)
Lemma output_selection_on_respond :
  (∀ (before : list Step) (out : Step) (after : list Step),
     steps popped = before ++ out :: after →
     eligible caller out = true →
     Forall (λ x, eligible caller x = false) after →
     ∃ s' caller',
       update step s = Ok s'
       ∧ stack s' = below ++ [caller']
       ∧ PyDict.get (agent_name popped) (outputs_by_subagent caller') = Some out
       ∧ outputs_by_subagent caller'
         = PyDict.set (agent_name popped) out (outputs_by_subagent caller)
       ∧ steps caller' = steps caller ++ [out; step])
  ∧ (∀ (input_a result_x : Step) (rest : list Step),
       steps popped = input_a :: result_x :: rest →
       is_step_by_active_agent input_a caller = true →
       is_call result_x || is_respond result_x = false →
       is_step_by_active_agent result_x caller = false →
       Forall (λ x, is_call x || is_respond x
                    || is_step_by_active_agent x caller = true) rest →
       ∃ s' caller',
         update step s = Ok s'
         ∧ stack s' = below ++ [caller']
         ∧ PyDict.get (agent_name popped) (outputs_by_subagent caller')
           = Some result_x
         ∧ result_x ≠ input_a).
Proof.
  assert (General : ∀ before out after,
    steps popped = before ++ out :: after →
    eligible caller out = true →
    Forall (λ x, eligible caller x = false) after →
    ∃ s' caller',
      update step s = Ok s'
      ∧ stack s' = below ++ [caller']
      ∧ PyDict.get (agent_name popped) (outputs_by_subagent caller') = Some out
      ∧ outputs_by_subagent caller'
        = PyDict.set (agent_name popped) out (outputs_by_subagent caller)
      ∧ steps caller' = steps caller ++ [out; step]).
  { intros before out after Hsteps Hout Hafter.
    eexists _, _. split; [apply update_respond_frames|]. split; [done|].
    unfold with_output. rewrite Hsteps.
    erewrite (find_last_eligible (set_next_node _ caller)); [|done..].
    rewrite counted_outputs, counted_steps. simpl.
    rewrite dict_get_set_eq, <- app_assoc. by simpl. }
  split; [exact General|].
  intros input_a result_x rest Hsteps Hin Hkind Hby Hrest.
  destruct (General [input_a] result_x rest) as (s' & caller' & H1 & H2 & H3 & _).
  - done.
  - unfold eligible. by rewrite Hkind, Hby.
  - eapply Forall_impl; [exact Hrest|]. intros x Hx. unfold eligible.
    cbv beta in Hx.
    destruct (is_call x || is_respond x); [done|].
    simpl in Hx. simpl. by rewrite Hx.
  - exists s', caller'. repeat split; try done.
    intros ->. by rewrite Hin in Hby.
Qed.

(** C10.  Pop with no eligible output.  When every step of [popped] is a
    [Call], a [Respond] or attributed to the agent of [caller], [update]
    with a [Respond] returns, [popped] is gone, the caller's
    [outputs_by_subagent] is as before, its [steps] have grown by the
    [Respond] alone, and the [Respond] has been appended to
    [messages_by_agent] under [step.by] and under [step.by] without its
    last segment. *)
Theorem pop_with_no_eligible_output :
  Forall (λ x, eligible caller x = false) (steps popped) →
  ∃ s' caller',
    update step s = Ok s'
    ∧ stack s' = below ++ [caller']
    ∧ outputs_by_subagent caller' = outputs_by_subagent caller
    ∧ steps caller' = steps caller ++ [step]
    ∧ steps_by_kind caller' !!! "return"
      = (steps_by_kind caller !!! "return") ++ [step]
    ∧ messages_by_agent s'
      = append_message (PyStr.rsplit1_head b) step
          (append_message b step (messages_by_agent s))
    ∧ last (messages_by_agent s' !!! b) = Some step
    ∧ last (messages_by_agent s' !!! PyStr.rsplit1_head b) = Some step.
Proof.
  intros Hnone.
  eexists _, _. split; [apply update_respond_frames|]. split; [done|].
  unfold with_output.
  rewrite (find_no_eligible (set_next_node _ caller)) by done.
  rewrite counted_outputs, counted_steps, counted_steps_by_kind.
  rewrite add_step_steps_by_kind. simpl.
  rewrite lookup_total_insert_eq.
  repeat split; try done; apply last_routed.
Qed.
End Respond.

(** A run in which root calls B, hands it an input, B produces a result and
    calls C, and C responds at once. *)
Definition nested_call_steps : list Step :=
  [Call "root" "" "" "B";
   AgentStep "user" "root" "p0" "input";
   AgentStep "thought" "root/B" "p1" "result";
   Call "root/B" "p1" "" "C"].

Definition stack_inside_c : TapeViewStack :=
  match run_updates nested_call_steps initial_stack with
  | Ok s => s
  | Raised _ s => s
  end.

Definition stack_inside_b : TapeViewStack :=
  match update (Respond "root/B/C" "" "") stack_inside_c with
  | Ok s => s
  | Raised _ s => s
  end.

Definition frame_at (i : nat) (s : TapeViewStack) : TapeView :=
  default (new_view "" "") (stack s !! i).

Lemma output_selection_on_respond_witness :
  ∃ s' caller',
    update (Respond "root/B" "" "") stack_inside_b = Ok s'
    ∧ stack s' = [caller']
    ∧ PyDict.get "B" (outputs_by_subagent caller')
      = Some (AgentStep "thought" "root/B" "p1" "result")
    ∧ AgentStep "thought" "root/B" "p1" "result"
      ≠ AgentStep "user" "root" "p0" "input".
Proof.
  apply (proj2 (output_selection_on_respond stack_inside_b []
                  (frame_at 0 stack_inside_b) (frame_at 1 stack_inside_b)
                  "root/B" "" "" ltac:(vm_compute; reflexivity))
           (AgentStep "user" "root" "p0" "input")
           (AgentStep "thought" "root/B" "p1" "result")
           [Call "root/B" "p1" "" "C"; Respond "root/B/C" "" ""]);
    try (vm_compute; reflexivity).
  repeat constructor.
Defined.

(** Root calls B and hands it an input; B responds without a step of its
    own. *)
Definition stack_with_input_only : TapeViewStack :=
  match run_updates (take 2 nested_call_steps) initial_stack with
  | Ok s => s
  | Raised _ s => s
  end.

Lemma pop_with_no_eligible_output_witness :
  ∃ s' caller',
    update (Respond "root/B" "" "") stack_with_input_only = Ok s'
    ∧ stack s' = [caller']
    ∧ outputs_by_subagent caller' = []
    ∧ steps caller' = [Call "root" "" "" "B"; Respond "root/B" "" ""]
    ∧ last (messages_by_agent s' !!! "root/B") = Some (Respond "root/B" "" "")
    ∧ last (messages_by_agent s' !!! "root") = Some (Respond "root/B" "" "").
Proof.
  destruct (pop_with_no_eligible_output stack_with_input_only []
              (frame_at 0 stack_with_input_only)
              (frame_at 1 stack_with_input_only)
              "root/B" "" "" ltac:(vm_compute; reflexivity)
              ltac:(vm_compute; repeat constructor))
    as (s' & caller' & Hup & Hst & Hout & Hsteps & _ & _ & Hby & Hrecv).
  exists s', caller'. repeat split; [exact Hup | exact Hst | exact Hout
    | exact Hsteps | exact Hby | exact Hrecv].
Defined.

(** ** Node counting *)

(** [next_node] of the top frame once the fold over [l] has returned. *)
Definition next_node_after (l : list Step) (s : TapeViewStack) : option Z :=
  match run_updates l s with
  | Ok s' => next_node <$> top s'
  | Raised _ _ => None
  end.

(** The positions at which a list of counter values goes up: [i] is listed
    when the value at [i + 1] is above the value at [i]. *)
Fixpoint increases_from (i : nat) (values : list Z) : list nat :=
  match values with
  | a :: (b :: _) as rest =>
      if (a <? b)%Z then i :: increases_from (S i) rest
      else increases_from (S i) rest
  | _ => []
  end.

Definition three_prompts : list Step :=
  [AgentStep "thought" "root" "p1" "a";
   AgentStep "thought" "root" "p1" "b";
   AgentStep "thought" "root" "p2" "c"].

(** The values of [next_node]: on the fresh frame, then after the 1st, the
    2nd and the 3rd step. *)
Definition three_prompts_trace : list (option Z) :=
  (λ i, next_node_after (take i three_prompts) initial_stack) <$> [0; 1; 2; 3].

(** The claim on such a trace: the counter goes up exactly once, between
    the 2nd and the 3rd step. *)
Definition goes_up_once_between_2nd_and_3rd (trace : list (option Z)) : Prop :=
  ∃ values, trace = Some <$> values ∧ increases_from 0 values = [2].

(** C3, as stated, fails: on the fresh root frame the three steps make
    [next_node] go 0, 1, 1, 2.  It goes up twice, first at the 1st step
    and then between the 2nd and the 3rd, not once. *)
Lemma node_counting_counterexample :
  three_prompts_trace = [Some 0; Some 1; Some 1; Some 2]%Z
  ∧ ¬ goes_up_once_between_2nd_and_3rd three_prompts_trace.
Proof.
  split; [reflexivity|]. intros (values & Htrace & Hup).
  change three_prompts_trace with [Some 0; Some 1; Some 1; Some 2]%Z in Htrace.
  destruct values as [|v0 [|v1 [|v2 [|v3 [|v4 rest]]]]]; try discriminate.
  injection Htrace as <- <- <- <-. discriminate.
Qed.

Lemma update_agent_step_counts k b p c l x m :
  is_step_by_active_agent (AgentStep k b p c) x = true →
  ∃ x',
    update (AgentStep k b p c) (mkStack (l ++ [x]) m) = Ok (mkStack (l ++ [x']) m)
    ∧ agent_full_name x' = agent_full_name x
    ∧ last_prompt_id x' = p
    ∧ next_node x'
      = (if String.eqb p (last_prompt_id x) then next_node x else next_node x + 1)%Z.
Proof.
  intros Hactive. eexists. split; [apply update_agent_step|].
  unfold counted.
  replace (is_step_by_active_agent (AgentStep k b p c)
             (add_step (AgentStep k b p c) x)) with true by done.
  simpl. by destruct (String.eqb p (last_prompt_id x)).
Qed.

(** C3, amended.  Node counting.  Let the top frame be fresh ([next_node]
    0, [last_prompt_id] empty) and let three [AgentStep]s with the prompt
    ids "p1", "p1", "p2" be attributed to its agent.  Then [next_node] is 1
    after the 1st step, 1 after the 2nd and 2 after the 3rd: it goes up at
    the 1st step, because "p1" differs from the empty [last_prompt_id], and
    between the 2nd and the 3rd step, and not between the 1st and the
    2nd. *)
Theorem node_counting (s : TapeViewStack) (frame : TapeView)
    (k1 b1 c1 k2 b2 c2 k3 b3 c3 : string) :
  let step1 := AgentStep k1 b1 "p1" c1 in
  let step2 := AgentStep k2 b2 "p1" c2 in
  let step3 := AgentStep k3 b3 "p2" c3 in
  top s = Some frame →
  next_node frame = 0%Z →
  last_prompt_id frame = "" →
  is_step_by_active_agent step1 frame = true →
  is_step_by_active_agent step2 frame = true →
  is_step_by_active_agent step3 frame = true →
  next_node_after [step1] s = Some 1%Z
  ∧ next_node_after [step1; step2] s = Some 1%Z
  ∧ next_node_after [step1; step2; step3] s = Some 2%Z.
Proof.
  intros step1 step2 step3 Htop Hnode Hlast H1 H2 H3.
  destruct s as [st m]. unfold top in Htop; simpl in Htop.
  apply last_Some in Htop as [l ->].
  destruct (update_agent_step_counts k1 b1 "p1" c1 l frame m H1)
    as (x1 & U1 & F1 & L1 & N1).
  rewrite Hlast, Hnode in N1. simpl in N1.
  assert (H2' : is_step_by_active_agent step2 x1 = true).
  { unfold is_step_by_active_agent in *. by rewrite F1. }
  destruct (update_agent_step_counts k2 b2 "p1" c2 l x1 m H2')
    as (x2 & U2 & F2 & L2 & N2).
  rewrite L1, N1 in N2. simpl in N2.
  assert (H3' : is_step_by_active_agent step3 x2 = true).
  { unfold is_step_by_active_agent in *. by rewrite F2, F1. }
  destruct (update_agent_step_counts k3 b3 "p2" c3 l x2 m H3')
    as (x3 & U3 & F3 & L3 & N3).
  rewrite L2, N2 in N3. simpl in N3.
  unfold next_node_after, step1, step2, step3; simpl.
  rewrite U1, U2, U3, !top_snoc. simpl. by rewrite N1, N2, N3.
Qed.

Lemma node_counting_witness :
  next_node_after [AgentStep "thought" "root" "p1" "a"] initial_stack = Some 1%Z
  ∧ next_node_after
      [AgentStep "thought" "root" "p1" "a"; AgentStep "thought" "root" "p1" "b"]
      initial_stack = Some 1%Z
  ∧ next_node_after three_prompts initial_stack = Some 2%Z.
Proof.
  apply (node_counting initial_stack (new_view "root" "root")
           "thought" "root" "a" "thought" "root" "b" "thought" "root" "c");
    reflexivity.
Defined.

(** ** End to end *)

(** C4.  End-to-end scenario.  On a tape that is not in the cache and
    whose steps are a [Call] of "B" by "root", an [AgentStep] by "root/B"
    with the prompt id "p1" and a [Respond] by "root/B", [compute] returns
    a stack of depth 1 whose root frame has the [AgentStep] as
    [outputs_by_subagent["B"]], and whose [messages_by_agent] holds the
    [Call] and then the [Respond] under "root" and under "root/B". *)
Theorem end_to_end_scenario (call_prompt call_content kind_ payload
    respond_prompt respond_content : string)
    (id : Z) (cache : gmap Z TapeViewStack) :
  let call := Call "root" call_prompt call_content "B" in
  let agent_step := AgentStep kind_ "root/B" "p1" payload in
  let respond := Respond "root/B" respond_prompt respond_content in
  cache !! id = None →
  ∃ s root,
    compute (mkTape id [call; agent_step; respond]) cache
    = (inl s, <[id := s]> cache)
    ∧ stack s = [root]
    ∧ depth s = 1
    ∧ agent_full_name root = "root"
    ∧ PyDict.get "B" (outputs_by_subagent root) = Some agent_step
    ∧ get_output (ByName "B") root = inl agent_step
    ∧ messages_by_agent s !! "root" = Some [call; respond]
    ∧ messages_by_agent s !! "root/B" = Some [call; respond].
Proof.
  intros call agent_step respond Hmiss.
  pose (root0 := new_view "root" "root").
  pose (root1 := add_step call root0).
  pose (frame_b := counted agent_step (add_step agent_step (new_view "B" "root/B"))).
  pose (m1 := append_message "root/B" call (append_message "root" call ∅)).
  pose (m2 := append_message "root" respond (append_message "root/B" respond m1)).
  pose (root2 := counted respond
                   (add_step respond
                      (with_output frame_b
                         (set_next_node (next_node root1 + 1) root1)))).
  assert (U1 : update call initial_stack
               = Ok (mkStack ([root1] ++ [new_view "B" "root/B"]) m1))
    by exact (update_call "root" call_prompt call_content "B" [] root0 ∅).
  assert (U2 : update agent_step (mkStack ([root1] ++ [new_view "B" "root/B"]) m1)
               = Ok (mkStack ([] ++ [root1; frame_b]) m1))
    by exact (update_agent_step kind_ "root/B" "p1" payload [root1]
                (new_view "B" "root/B") m1).
  assert (U3 : update respond (mkStack ([] ++ [root1; frame_b]) m1)
               = Ok (mkStack [root2] m2))
    by exact (update_respond "root/B" respond_prompt respond_content
                [] root1 frame_b m1).
  assert (Hrun : run_updates [call; agent_step; respond] initial_stack
                 = Ok (mkStack [root2] m2)).
  { unfold run_updates. by rewrite U1, U2, U3. }
  assert (Hout : outputs_by_subagent root2 = [("B", agent_step)]).
  { unfold root2. rewrite counted_outputs. reflexivity. }
  exists (mkStack [root2] m2), root2.
  split. { unfold compute. simpl tape_id. simpl tape_steps. by rewrite Hmiss, Hrun. }
  split; [reflexivity|]. split; [reflexivity|].
  split. { unfold root2. rewrite (proj2 (counted_names _ _)). reflexivity. }
  split. { rewrite Hout. reflexivity. }
  split. { unfold get_output. rewrite Hout. reflexivity. }
  split; reflexivity.
Qed.

Lemma end_to_end_scenario_witness :
  ∃ s root,
    compute (mkTape 1 [Call "root" "" "go" "B";
                       AgentStep "thought" "root/B" "p1" "done";
                       Respond "root/B" "" ""]) ∅
    = (inl s, <[1%Z := s]> ∅)
    ∧ stack s = [root]
    ∧ PyDict.get "B" (outputs_by_subagent root)
      = Some (AgentStep "thought" "root/B" "p1" "done").
Proof.
  destruct (end_to_end_scenario "" "go" "thought" "done" "" "" 1 ∅
              (lookup_empty 1%Z))
    as (s & root & Hc & Hs & _ & _ & Hout & _).
  exists s, root. repeat split; [exact Hc | exact Hs | exact Hout].
Defined.

(** ** Reading the outputs *)

Section Index.
Context {A : Type}.
Implicit Types (l : list A) (x : A).

Lemma index_nonneg l (i : nat) x :
  l !! i = Some x → PyStr.index l (Z.of_nat i) = Some x.
Proof.
  intros H. unfold PyStr.index.
  replace (0 <=? Z.of_nat i)%Z with true by (symmetry; apply Z.leb_le; lia).
  by rewrite Nat2Z.id.
Qed.

Lemma index_negative l (i : nat) x :
  l !! i = Some x →
  PyStr.index l (Z.of_nat i - Z.of_nat (length l)) = Some x.
Proof.
  intros H. pose proof (lookup_lt_Some _ _ _ H) as Hlt. unfold PyStr.index.
  replace (0 <=? Z.of_nat i - Z.of_nat (length l))%Z with false
    by (symmetry; apply Z.leb_gt; lia).
  replace (- Z.of_nat (length l) <=? Z.of_nat i - Z.of_nat (length l))%Z
    with true by (symmetry; apply Z.leb_le; lia).
  replace (Z.of_nat (length l) + (Z.of_nat i - Z.of_nat (length l)))%Z
    with (Z.of_nat i) by lia.
  by rewrite Nat2Z.id.
Qed.

Lemma index_out_of_range l (i : Z) :
  (i < - Z.of_nat (length l) ∨ Z.of_nat (length l) ≤ i)%Z →
  PyStr.index l i = None.
Proof.
  intros H. unfold PyStr.index.
  destruct (0 <=? i)%Z eqn:E0.
  - apply Z.leb_le in E0. apply lookup_ge_None. lia.
  - apply Z.leb_gt in E0.
    replace (- Z.of_nat (length l) <=? i)%Z with false; [done|].
    symmetry. apply Z.leb_gt. lia.
Qed.
End Index.

Lemma dict_get_elem {V} k (x : V) (d : PyDict.t V) :
  PyDict.wf d → (k, x) ∈ d → PyDict.get k d = Some x.
Proof.
  unfold PyDict.wf, PyDict.keys.
  induction d as [|[k' v'] d IH]; simpl; intros Hwf Hin.
  - by apply elem_of_nil in Hin.
  - apply NoDup_cons in Hwf as [Hk' Hwf].
    apply elem_of_cons in Hin as [Heq|Hin].
    + injection Heq as <- <-. by rewrite String.eqb_refl.
    + destruct (String.eqb k k') eqn:E.
      * apply String.eqb_eq in E as ->. exfalso. apply Hk'.
        apply list_elem_of_fmap. by exists (k', x).
      * by apply IH.
Qed.

Lemma dict_get_absent {V} k (d : PyDict.t V) :
  k ∉ PyDict.keys d → PyDict.get k d = None.
Proof.
  unfold PyDict.keys. induction d as [|[k' v'] d IH]; simpl; intros Hk; [done|].
  apply not_elem_of_cons in Hk as [Hne Hk].
  destruct (String.eqb k k') eqn:E.
  - apply String.eqb_eq in E. contradiction.
  - by apply IH.
Qed.

(** Assignments keep the keys of a dictionary distinct. *)
Lemma dict_set_keys {V} k (v : V) (d : PyDict.t V) :
  PyDict.keys (PyDict.set k v d)
  = if bool_decide (k ∈ PyDict.keys d) then PyDict.keys d
    else PyDict.keys d ++ [k].
Proof.
  unfold PyDict.keys. induction d as [|[k' v'] d IH]; [done|].
  cbn [PyDict.set].
  destruct (String.eqb k k') eqn:E; rewrite !fmap_cons; cbn [fst].
  - apply String.eqb_eq in E as ->.
    rewrite bool_decide_eq_true_2; [done | apply elem_of_cons; by left].
  - apply String.eqb_neq in E. rewrite IH.
    destruct (bool_decide (k ∈ d.*1)) eqn:B.
    + apply bool_decide_eq_true in B.
      rewrite bool_decide_eq_true_2; [done | apply elem_of_cons; by right].
    + apply bool_decide_eq_false in B.
      rewrite bool_decide_eq_false_2; [done|].
      intros [?|?]%elem_of_cons; contradiction.
Qed.

Lemma dict_set_wf {V} k (v : V) (d : PyDict.t V) :
  PyDict.wf d → PyDict.wf (PyDict.set k v d).
Proof.
  unfold PyDict.wf. rewrite dict_set_keys. intros Hwf.
  destruct (bool_decide (k ∈ PyDict.keys d)) eqn:B; [done|].
  apply bool_decide_eq_false in B.
  apply NoDup_app. repeat split; [done | | apply NoDup_singleton].
  intros x Hx [->|[]%elem_of_nil]%elem_of_cons. contradiction.
Qed.

(** The keys of [outputs_by_subagent] stay distinct in every frame the
    fold builds. *)
Definition outputs_wf (s : TapeViewStack) : Prop :=
  Forall (λ v, PyDict.wf (outputs_by_subagent v)) (stack s).

Lemma with_output_wf popped caller :
  PyDict.wf (outputs_by_subagent caller) →
  PyDict.wf (outputs_by_subagent (with_output popped caller)).
Proof.
  intros Hwf. unfold with_output.
  destruct (find (eligible caller) (rev (steps popped))); [|done].
  simpl. by apply dict_set_wf.
Qed.

Lemma update_outputs_wf step s s' :
  outputs_wf s → update step s = Ok s' → outputs_wf s'.
Proof.
  intros Hwf H. pose proof (update_ok_nonempty _ _ _ H) as [Hne _].
  destruct (stack_snoc s Hne) as (l & x & m & ->).
  unfold outputs_wf in *; simpl in *.
  apply Forall_app in Hwf as [Hl Hx]. rewrite Forall_singleton in Hx.
  destruct step.
  - rewrite update_call in H. injection H as <-. simpl.
    apply Forall_app. split; [done|].
    apply Forall_cons; split; [done|]. apply Forall_singleton.
    rewrite counted_outputs. simpl. constructor.
  - destruct (list_snoc_cases l) as [->|(l' & y & ->)]; [discriminate|].
    rewrite <- app_assoc in H. simpl in H. rewrite update_respond in H.
    injection H as <-. simpl.
    apply Forall_app in Hl as [Hl' Hy]. rewrite Forall_singleton in Hy.
    apply Forall_app. split; [done|]. apply Forall_singleton.
    rewrite counted_outputs.
    by apply (with_output_wf x (set_next_node (next_node y + 1) y)).
  - rewrite update_broadcast in H. injection H as <-. simpl.
    apply Forall_app. split; [done|]. apply Forall_singleton.
    by rewrite counted_outputs.
  - rewrite update_jump in H. injection H as <-. simpl.
    apply Forall_app. split; [done|]. apply Forall_singleton.
    by rewrite counted_outputs.
  - rewrite update_agent_step in H. injection H as <-. simpl.
    apply Forall_app. split; [done|]. apply Forall_singleton.
    by rewrite counted_outputs.
  - rewrite update_observation in H. injection H as <-. simpl.
    apply Forall_app. split; [done|]. by apply Forall_singleton.
  - rewrite update_unsupported in H. discriminate.
Qed.

Lemma run_updates_outputs_wf l : ∀ s s',
  outputs_wf s → run_updates l s = Ok s' → outputs_wf s'.
Proof.
  induction l as [|step l IH]; intros s s' Hwf H; simpl in H.
  - by injection H as <-.
  - destruct (update step s) as [s1|e s1] eqn:E; [|discriminate].
    apply (IH s1); [|done]. by apply (update_outputs_wf step s).
Qed.

Lemma computed_outputs_wf l s :
  run_updates l initial_stack = Ok s → outputs_wf s.
Proof.
  apply run_updates_outputs_wf. apply Forall_singleton. constructor.
Qed.

(** C7.  The contract of [get_output].  Let the keys of
    [outputs_by_subagent] be distinct, as the keys of a dictionary are, and
    let [n] be the number of its entries.  With an integer, [get_output]
    returns the value at that position in the order of insertion, where
    Python counts a negative position from the end, and raises IndexError
    for a position outside of [-n, n).  With a name, it returns the value
    stored under the name, and raises KeyError for a name that is not a
    key.  The exception is the result of the call: nothing recovers from
    it. *)
Theorem get_output_contract (v : TapeView) :
  PyDict.wf (outputs_by_subagent v) →
  let values := PyDict.values (outputs_by_subagent v) in
  let n := Z.of_nat (length values) in
  (∀ (i : nat) x, values !! i = Some x →
     get_output (ByIndex (Z.of_nat i)) v = inl x
     ∧ get_output (ByIndex (Z.of_nat i - n)) v = inl x)
  ∧ (∀ i : Z, (i < - n ∨ n ≤ i)%Z → get_output (ByIndex i) v = inr IndexError)
  ∧ (∀ name x, (name, x) ∈ outputs_by_subagent v →
       get_output (ByName name) v = inl x)
  ∧ (∀ name, name ∉ PyDict.keys (outputs_by_subagent v) →
       get_output (ByName name) v = inr KeyError).
Proof.
  intros Hwf values n. subst n values. unfold get_output.
  split; [|split; [|split]].
  - intros i x Hi. split.
    + by rewrite (index_nonneg _ _ _ Hi).
    + by rewrite (index_negative _ _ _ Hi).
  - intros i Hi. by rewrite index_out_of_range.
  - intros name x Hin. by rewrite (dict_get_elem name x).
  - intros name Hname. by rewrite dict_get_absent.
Qed.

Lemma get_output_contract_witness :
  let v := set_output "C" (Observation "obs" "second")
             (set_output "B" (Observation "obs" "first") (new_view "root" "root")) in
  get_output (ByIndex 1) v = inl (Observation "obs" "second")
  ∧ get_output (ByIndex (-2)) v = inl (Observation "obs" "first")
  ∧ get_output (ByIndex 2) v = inr IndexError
  ∧ get_output (ByName "B") v = inl (Observation "obs" "first")
  ∧ get_output (ByName "D") v = inr KeyError.
Proof.
  intros v.
  destruct (get_output_contract v) as (Hidx & Hrange & Hname & Habsent).
  { unfold PyDict.wf. compute_done. }
  split; [apply (Hidx 1 (Observation "obs" "second") eq_refl)|].
  split; [apply (Hidx 0 (Observation "obs" "first") eq_refl)|].
  split; [apply (Hrange 2%Z); simpl; lia|].
  split.
  - apply Hname. simpl. apply elem_of_cons. by left.
  - apply Habsent. simpl.
    intros [?|[?|[]%elem_of_nil]%elem_of_cons]%elem_of_cons; discriminate.
Defined.

(** ** The cache and determinism *)

Lemma compute_miss tape (cache : gmap Z TapeViewStack) :
  cache !! tape_id tape = None →
  compute tape cache
  = match run_updates (tape_steps tape) initial_stack with
    | Ok s => (inl s, <[tape_id tape := s]> cache)
    | Raised e _ => (inr e, cache)
    end.
Proof. intros H. unfold compute. by rewrite H. Qed.

(** A hit returns what the cache holds for the identity, whatever the
    steps of the tape are. *)
Lemma compute_hit tape (cache : gmap Z TapeViewStack) cached :
  cache !! tape_id tape = Some cached →
  compute tape cache = (inl cached, cache).
Proof. intros H. unfold compute. by rewrite H. Qed.

(** On a miss, what [compute] returns is read off the steps of the tape;
    the identity of the tape and the rest of the cache do not enter. *)
Lemma compute_is_deterministic (tape1 tape2 : Tape)
    (cache1 cache2 : gmap Z TapeViewStack) :
  tape_steps tape1 = tape_steps tape2 →
  tape_id tape1 ≠ tape_id tape2 →
  cache1 !! tape_id tape1 = None →
  cache2 !! tape_id tape2 = None →
  (compute tape1 cache1).1 = (compute tape2 cache2).1
  ∧ (cache1 !! tape_id tape2 = None →
     (compute tape2 (compute tape1 cache1).2).1 = (compute tape1 cache1).1)
  ∧ (compute tape1 cache1).1
    = match run_updates (tape_steps tape1) initial_stack with
      | Ok s => inl s
      | Raised e _ => inr e
      end.
Proof.
  intros Hsteps Hid H1 H2.
  rewrite (compute_miss tape1 cache1 H1), (compute_miss tape2 cache2 H2).
  rewrite <- Hsteps.
  destruct (run_updates (tape_steps tape1) initial_stack) as [s|e s] eqn:Hrun;
    simpl; (split; [done|]); (split; [|done]); intros H12.
  - rewrite compute_miss by (by rewrite lookup_insert_ne).
    by rewrite <- Hsteps, Hrun.
  - rewrite compute_miss by done. by rewrite <- Hsteps, Hrun.
Qed.

(** The same steps on two tape objects. *)
Definition call_and_return : list Step :=
  [Call "root" "" "" "B"; Observation "obs" "seen"; Respond "root/B" "" ""].

Lemma compute_is_deterministic_witness :
  (compute (mkTape 1 call_and_return) ∅).1
  = (compute (mkTape 2 call_and_return) ∅).1
  ∧ (compute (mkTape 2 call_and_return)
       (compute (mkTape 1 call_and_return) ∅).2).1
    = (compute (mkTape 1 call_and_return) ∅).1.
Proof.
  destruct (compute_is_deterministic (mkTape 1 call_and_return)
              (mkTape 2 call_and_return) ∅ ∅
              ltac:(reflexivity) ltac:(simpl; discriminate)
              ltac:(reflexivity) ltac:(reflexivity)) as (Hsame & Hrow & _).
  split; [exact Hsame | apply Hrow; reflexivity].
Defined.

(** * Further properties of the state machine *)

(** ** Properties of frames that every [update] keeps *)

(** A property of frames that [TapeView(...)] establishes and that
    [add_step] and the assignments to [next_node], [last_prompt_id] and
    [outputs_by_subagent] keep is kept by [update] on every frame. *)
Section FrameInvariant.
Variable P : TapeView → Prop.
Hypothesis P_new : ∀ name full, P (new_view name full).
Hypothesis P_add_step : ∀ step v, P v → P (add_step step v).
Hypothesis P_next_node : ∀ n v, P v → P (set_next_node n v).
Hypothesis P_last_prompt_id : ∀ p v, P v → P (set_last_prompt_id p v).
Hypothesis P_output : ∀ name out v, P v → P (set_output name out v).

Lemma frame_invariant_counted step v : P v → P (counted step v).
Proof.
  intros Hv. unfold counted. destruct (is_step_by_active_agent step v); [|done].
  apply P_last_prompt_id. destruct (negb (is_jump step) && _); [|done].
  by apply P_next_node.
Qed.

Lemma frame_invariant_with_output popped caller :
  P caller → P (with_output popped caller).
Proof.
  intros Hc. unfold with_output.
  destruct (find (eligible caller) (rev (steps popped))); [|done].
  by apply P_output, P_add_step.
Qed.

Lemma frame_invariant_update step s s' :
  Forall P (stack s) → update step s = Ok s' → Forall P (stack s').
Proof.
  intros Hall H. pose proof (update_ok_nonempty _ _ _ H) as [Hne _].
  destruct (stack_snoc s Hne) as (l & x & m & ->). simpl in Hall.
  apply Forall_app in Hall as [Hl Hx]. rewrite Forall_singleton in Hx.
  destruct step.
  - rewrite update_call in H. injection H as <-. simpl.
    apply Forall_app. split; [done|].
    apply Forall_cons; split; [by apply P_add_step|]. apply Forall_singleton.
    apply frame_invariant_counted, P_new.
  - destruct (list_snoc_cases l) as [->|(l' & y & ->)]; [discriminate|].
    rewrite <- app_assoc in H. simpl in H. rewrite update_respond in H.
    injection H as <-. simpl.
    apply Forall_app in Hl as [Hl' Hy]. rewrite Forall_singleton in Hy.
    apply Forall_app. split; [done|]. apply Forall_singleton.
    apply frame_invariant_counted, P_add_step, frame_invariant_with_output.
    by apply P_next_node.
  - rewrite update_broadcast in H. injection H as <-. simpl.
    apply Forall_app. split; [done|]. apply Forall_singleton.
    by apply frame_invariant_counted, P_add_step.
  - rewrite update_jump in H. injection H as <-. simpl.
    apply Forall_app. split; [done|]. apply Forall_singleton.
    by apply frame_invariant_counted, P_next_node.
  - rewrite update_agent_step in H. injection H as <-. simpl.
    apply Forall_app. split; [done|]. apply Forall_singleton.
    by apply frame_invariant_counted, P_add_step.
  - rewrite update_observation in H. injection H as <-. simpl.
    apply Forall_app. split; [done|]. apply Forall_singleton.
    by apply P_add_step.
  - rewrite update_unsupported in H. discriminate.
Qed.

Lemma frame_invariant_run l : ∀ s s',
  Forall P (stack s) → run_updates l s = Ok s' → Forall P (stack s').
Proof.
  induction l as [|step l IH]; intros s s' Hall H; simpl in H.
  - by injection H as <-.
  - destruct (update step s) as [s1|e s1] eqn:E; [|discriminate].
    apply (IH s1); [|done]. by apply (frame_invariant_update step s).
Qed.

Lemma frame_invariant_computed l s :
  run_updates l initial_stack = Ok s → Forall P (stack s).
Proof. apply frame_invariant_run. apply Forall_singleton, P_new. Qed.
End FrameInvariant.

(** ** [steps_by_kind] is an index of [steps] *)

(** The steps of a frame that have the kind [k], in the order of [steps]. *)
Definition steps_of_kind (k : string) (v : TapeView) : list Step :=
  filter (λ x, kind x = k) (steps v).

(** [steps_by_kind] has a bucket for exactly the kinds that occur in
    [steps], and the bucket of a kind holds the steps of that kind in the
    order of [steps]. *)
Definition by_kind_consistent (v : TapeView) : Prop :=
  ∀ k, steps_by_kind v !! k
       = match steps_of_kind k v with
         | [] => None
         | bucket => Some bucket
         end.

Lemma by_kind_consistent_total v k :
  by_kind_consistent v → steps_by_kind v !!! k = steps_of_kind k v.
Proof.
  intros H. rewrite lookup_total_alt, (H k). by destruct (steps_of_kind k v).
Qed.

Lemma by_kind_consistent_add_step step v :
  by_kind_consistent v → by_kind_consistent (add_step step v).
Proof.
  intros H k. rewrite add_step_steps_by_kind. unfold steps_of_kind.
  rewrite add_step_steps, filter_app, filter_cons, filter_nil.
  destruct (decide (kind step = k)) as [<-|Hne].
  - rewrite lookup_insert_eq, (by_kind_consistent_total _ _ H).
    unfold steps_of_kind. by destruct (filter _ (steps v)).
  - rewrite lookup_insert_ne by done. rewrite app_nil_r. apply H.
Qed.

(** X1.  In every stack computed from the root frame, [steps_by_kind] of
    every frame is an index of its [steps]: a kind is a key exactly when a
    step of the frame has it, and its bucket is the list of the steps of
    that kind in the order in which [steps] holds them. *)
Theorem steps_by_kind_indexes_steps (l : list Step) (s : TapeViewStack) :
  run_updates l initial_stack = Ok s →
  ∀ v, v ∈ stack s →
    ∀ k,
      (steps_by_kind v !! k = None ↔ ∀ x, x ∈ steps v → kind x ≠ k)
      ∧ steps_by_kind v !!! k = filter (λ x, kind x = k) (steps v).
Proof.
  intros Hrun v Hv k.
  assert (Hcons : by_kind_consistent v).
  { pose proof (frame_invariant_computed by_kind_consistent) as Hall.
    specialize (Hall ltac:(by intros ? ? ?)
                  by_kind_consistent_add_step
                  ltac:(by intros ? ? ?) ltac:(by intros ? ? ?)
                  ltac:(by intros ? ? ? ?) l s Hrun).
    rewrite Forall_forall in Hall. by apply Hall. }
  split; [|by apply by_kind_consistent_total].
  rewrite (Hcons k). unfold steps_of_kind. split.
  - intros Hnone x Hx Hk.
    assert (Hin : x ∈ filter (λ x, kind x = k) (steps v))
      by (by apply list_elem_of_filter).
    destruct (filter _ (steps v)); [by apply elem_of_nil in Hin | discriminate].
  - intros Hno. destruct (filter _ (steps v)) as [|x rest] eqn:E; [done|].
    assert (Hin : x ∈ filter (λ x, kind x = k) (steps v))
      by (rewrite E; apply elem_of_cons; by left).
    apply list_elem_of_filter in Hin as [Hk Hx]. by destruct (Hno x Hx).
Qed.

Lemma steps_by_kind_indexes_steps_witness :
  steps_by_kind (frame_at 1 stack_inside_b) !!! "thought"
  = filter (λ x, kind x = "thought") (steps (frame_at 1 stack_inside_b)).
Proof.
  apply (steps_by_kind_indexes_steps
           (nested_call_steps ++ [Respond "root/B/C" "" ""]) stack_inside_b
           ltac:(vm_compute; reflexivity) (frame_at 1 stack_inside_b)
           ltac:(apply list_elem_of_lookup; exists 1; vm_compute; reflexivity)
           "thought").
Defined.

(** ** The message index *)

(** What a step adds to [messages_by_agent]. *)
Definition routed (step : Step) (m : gmap string (list Step))
    : gmap string (list Step) :=
  match step with
  | Call b _ _ n => append_message (path_join b n) step (append_message b step m)
  | Respond b _ _ =>
      append_message (PyStr.rsplit1_head b) step (append_message b step m)
  | Broadcast _ _ _ _ _ => broadcast_messages step m
  | _ => m
  end.

Lemma update_messages step s s' :
  update step s = Ok s' → messages_by_agent s' = routed step (messages_by_agent s).
Proof.
  intros H. pose proof (update_ok_nonempty _ _ _ H) as [Hne _].
  destruct (stack_snoc s Hne) as (l & x & m & ->).
  destruct step.
  - rewrite update_call in H. by injection H as <-.
  - destruct (list_snoc_cases l) as [->|(l' & y & ->)]; [discriminate|].
    rewrite <- app_assoc in H. simpl in H. rewrite update_respond in H.
    by injection H as <-.
  - rewrite update_broadcast in H. by injection H as <-.
  - rewrite update_jump in H. by injection H as <-.
  - rewrite update_agent_step in H. by injection H as <-.
  - rewrite update_observation in H. by injection H as <-.
  - rewrite update_unsupported in H. discriminate.
Qed.

Definition is_broadcast (step : Step) : bool :=
  match step with Broadcast _ _ _ _ _ => true | _ => false end.

(** [isinstance(step, (Call, Respond, Broadcast))] *)
Definition is_message (step : Step) : bool :=
  is_call step || is_respond step || is_broadcast step.

Definition messages_typed (m : gmap string (list Step)) : Prop :=
  map_Forall (λ _ inbox, Forall (λ x, is_message x = true) inbox) m.

Lemma append_message_typed key step m :
  is_message step = true → messages_typed m →
  messages_typed (append_message key step m).
Proof.
  intros Hstep Hm. unfold append_message. apply map_Forall_insert_2; [|done].
  apply Forall_app. split; [|by constructor].
  rewrite lookup_total_alt. destruct (m !! key) as [old|] eqn:E; simpl.
  - by apply (Hm _ _ E).
  - constructor.
Qed.

Lemma broadcast_messages_typed step m :
  is_message step = true → messages_typed m →
  messages_typed (broadcast_messages step m).
Proof.
  intros Hstep. unfold broadcast_messages. revert m.
  induction (step_to step) as [|to tos IH]; intros m Hm; simpl; [done|].
  by apply IH, append_message_typed.
Qed.

Lemma routed_typed step m : messages_typed m → messages_typed (routed step m).
Proof.
  intros Hm. destruct step; simpl; try done.
  - by apply append_message_typed, append_message_typed.
  - by apply append_message_typed, append_message_typed.
  - by apply broadcast_messages_typed.
Qed.

Lemma run_updates_messages_typed l : ∀ s s',
  messages_typed (messages_by_agent s) → run_updates l s = Ok s' →
  messages_typed (messages_by_agent s').
Proof.
  induction l as [|step l IH]; intros s s' Hm H; simpl in H.
  - by injection H as <-.
  - destruct (update step s) as [s1|e s1] eqn:E; [|discriminate].
    apply (IH s1); [|done]. rewrite (update_messages _ _ _ E).
    by apply routed_typed.
Qed.

(** X2.  [messages_by_agent] holds nothing but [Call], [Respond] and
    [Broadcast] steps: in every stack computed from the root frame, every
    step filed under any path is an instance of one of the three
    classes. *)
Theorem messages_hold_only_calls_responds_broadcasts
    (l : list Step) (s : TapeViewStack) :
  run_updates l initial_stack = Ok s →
  ∀ path inbox x,
    messages_by_agent s !! path = Some inbox → x ∈ inbox →
    is_call x || is_respond x || is_broadcast x = true.
Proof.
  intros Hrun path inbox x Hlook Hx.
  assert (Hm : messages_typed (messages_by_agent s)).
  { apply (run_updates_messages_typed l initial_stack); [|done].
    apply map_Forall_empty. }
  specialize (Hm path inbox Hlook). rewrite Forall_forall in Hm. by apply Hm.
Qed.

Lemma messages_hold_only_calls_responds_broadcasts_witness :
  is_call (Call "root/B" "p1" "" "C") || is_respond (Call "root/B" "p1" "" "C")
  || is_broadcast (Call "root/B" "p1" "" "C") = true.
Proof.
  apply (messages_hold_only_calls_responds_broadcasts
           nested_call_steps stack_inside_c ltac:(vm_compute; reflexivity)
           "root/B/C" [Call "root/B" "p1" "" "C"] (Call "root/B" "p1" "" "C")
           ltac:(vm_compute; reflexivity)).
  apply elem_of_cons. by left.
Defined.

(** [append_message] keeps every key and extends its list at the end. *)
Lemma append_message_grows key' step m key :
  (is_Some (m !! key) → is_Some (append_message key' step m !! key))
  ∧ (m !!! key) `prefix_of` (append_message key' step m !!! key).
Proof.
  destruct (decide (key' = key)) as [->|Hne].
  - split.
    + intros _. unfold append_message. rewrite lookup_insert_eq. by eexists.
    + rewrite append_message_lookup_eq. by eexists.
  - rewrite append_message_lookup_ne, append_message_lookup_total_ne by done.
    done.
Qed.

Definition grows (m m' : gmap string (list Step)) : Prop :=
  ∀ key,
    (is_Some (m !! key) → is_Some (m' !! key))
    ∧ (m !!! key) `prefix_of` (m' !!! key).

Lemma grows_refl m : grows m m.
Proof. by intros key. Qed.

Lemma grows_trans m1 m2 m3 : grows m1 m2 → grows m2 m3 → grows m1 m3.
Proof.
  intros H12 H23 key. destruct (H12 key) as [K12 P12], (H23 key) as [K23 P23].
  split; [auto|]. by etrans.
Qed.

Lemma append_message_grows_map key step m : grows m (append_message key step m).
Proof. intros k. apply append_message_grows. Qed.

Lemma broadcast_messages_grows step m : grows m (broadcast_messages step m).
Proof.
  unfold broadcast_messages. revert m.
  induction (step_to step) as [|to tos IH]; intros m; simpl; [apply grows_refl|].
  eapply grows_trans; [apply append_message_grows_map | apply IH].
Qed.

Lemma routed_grows step m : grows m (routed step m).
Proof.
  destruct step; simpl; try apply grows_refl.
  - eapply grows_trans; apply append_message_grows_map.
  - eapply grows_trans; apply append_message_grows_map.
  - apply broadcast_messages_grows.
Qed.

(** X3.  [messages_by_agent] is append-only.  Whatever steps the fold
    processes from whatever stack, a path that had a list of messages
    still has one, and the list it had is a prefix of the list it has:
    no message is removed, replaced or reordered. *)
Theorem messages_are_append_only (l : list Step) (s s' : TapeViewStack) :
  run_updates l s = Ok s' →
  ∀ path,
    (is_Some (messages_by_agent s !! path)
     → is_Some (messages_by_agent s' !! path))
    ∧ (messages_by_agent s !!! path) `prefix_of` (messages_by_agent s' !!! path).
Proof.
  revert s. induction l as [|step l IH]; intros s H; simpl in H.
  - injection H as <-. apply grows_refl.
  - destruct (update step s) as [s1|e s1] eqn:E; [|discriminate].
    apply (grows_trans _ (messages_by_agent s1)); [|exact (IH s1 H)].
    rewrite (update_messages _ _ _ E). apply routed_grows.
Qed.

Lemma messages_are_append_only_witness :
  (messages_by_agent stack_inside_c !!! "root/B")
    `prefix_of` (messages_by_agent stack_inside_b !!! "root/B").
Proof.
  apply (messages_are_append_only [Respond "root/B/C" "" ""]
           stack_inside_c stack_inside_b ltac:(vm_compute; reflexivity) "root/B").
Defined.

(** ** The paths of the frames *)

(** [agent_name] and [agent_full_name] of a frame. *)
Definition names (v : TapeView) : string * string :=
  (agent_name v, agent_full_name v).

Definition frame_names (s : TapeViewStack) : list (string * string) :=
  names <$> stack s.

Lemma names_add_step step v : names (add_step step v) = names v.
Proof. reflexivity. Qed.

Lemma names_counted step v : names (counted step v) = names v.
Proof. unfold names. by destruct (counted_names step v) as [-> ->]. Qed.

Lemma names_with_output popped caller :
  names (with_output popped caller) = names caller.
Proof.
  unfold with_output. by destruct (find (eligible caller) (rev (steps popped))).
Qed.

(** The names of the frames after one [update]: a [Call] adds the path of
    the callee below the path of the caller, a [Respond] removes the last
    frame, and no step renames a frame. *)
Lemma update_frame_names step s s' top_frame :
  top s = Some top_frame →
  update step s = Ok s' →
  frame_names s'
  = match step with
    | Call _ _ _ n =>
        frame_names s ++ [(n, path_join (agent_full_name top_frame) n)]
    | Respond _ _ _ => removelast (frame_names s)
    | _ => frame_names s
    end.
Proof.
  intros Htop H. pose proof (update_ok_nonempty _ _ _ H) as [Hne _].
  destruct (stack_snoc s Hne) as (l & x & m & ->).
  rewrite top_snoc in Htop. injection Htop as ->.
  unfold frame_names; simpl. destruct step.
  - rewrite update_call in H. injection H as <-. simpl.
    rewrite !fmap_app. simpl.
    rewrite names_add_step, names_counted, <- app_assoc. done.
  - destruct (list_snoc_cases l) as [->|(l' & y & ->)]; [discriminate|].
    rewrite <- app_assoc in H. simpl in H. rewrite update_respond in H.
    injection H as <-. simpl. rewrite !fmap_app. simpl.
    rewrite names_counted, names_add_step, names_with_output.
    by rewrite removelast_last.
  - rewrite update_broadcast in H. injection H as <-. simpl.
    rewrite !fmap_app. simpl. by rewrite names_counted, names_add_step.
  - rewrite update_jump in H. injection H as <-. simpl.
    rewrite !fmap_app. simpl. by rewrite names_counted.
  - rewrite update_agent_step in H. injection H as <-. simpl.
    rewrite !fmap_app. simpl. by rewrite names_counted, names_add_step.
  - rewrite update_observation in H. injection H as <-. simpl.
    rewrite !fmap_app. simpl. by rewrite names_add_step.
  - rewrite update_unsupported in H. discriminate.
Qed.

(** The first frame is the root, and the full name of every other frame
    is the full name of the frame below it, a slash, and its own name. *)
Definition chained (ns : list (string * string)) : Prop :=
  ns !! 0 = Some ("root", "root")
  ∧ ∀ i parent child,
      ns !! i = Some parent → ns !! S i = Some child →
      child.2 = path_join parent.2 child.1.

Lemma chained_push ns a n :
  chained (ns ++ [a]) → chained ((ns ++ [a]) ++ [(n, path_join a.2 n)]).
Proof.
  intros [Hroot Hchain]. split.
  - apply lookup_app_l_Some. done.
  - intros i parent child Hp Hc.
    apply lookup_app_Some in Hc as [Hc|[Hlen Hc]].
    + pose proof (lookup_lt_Some _ _ _ Hc) as Hlt.
      rewrite lookup_app_l in Hp by lia. by apply (Hchain i).
    + apply list_lookup_singleton_Some in Hc as [Hi <-]. simpl.
      rewrite length_app in Hlen, Hi; simpl in Hlen, Hi.
      assert (i = length ns) as -> by lia.
      rewrite <- app_assoc, lookup_app_r in Hp by lia.
      rewrite Nat.sub_diag in Hp. simpl in Hp. by injection Hp as <-.
Qed.

Lemma chained_pop ns a b : chained ((ns ++ [a]) ++ [b]) → chained (ns ++ [a]).
Proof.
  intros [Hroot Hchain]. split.
  - rewrite lookup_app_l in Hroot; [done|]. rewrite length_app; simpl. lia.
  - intros i parent child Hp Hc. apply (Hchain i).
    + by apply lookup_app_l_Some.
    + by apply lookup_app_l_Some.
Qed.

Lemma update_chained step s s' :
  chained (frame_names s) → update step s = Ok s' → chained (frame_names s').
Proof.
  intros Hch H. pose proof (update_ok_nonempty _ _ _ H) as [Hne _].
  destruct (stack_snoc s Hne) as (l & x & m & ->).
  rewrite (update_frame_names step _ s' x (top_snoc l x m) H).
  unfold frame_names in *; simpl in *. rewrite fmap_app in *. simpl in *.
  destruct step; try done.
  - by apply (chained_push (names <$> l) (names x)).
  - destruct (list_snoc_cases l) as [->|(l' & y & ->)]; [discriminate|].
    rewrite removelast_last. rewrite fmap_app in *. simpl in *.
    by apply (chained_pop _ _ (names x)).
Qed.

Lemma run_updates_chained l : ∀ s s',
  chained (frame_names s) → run_updates l s = Ok s' → chained (frame_names s').
Proof.
  induction l as [|step l IH]; intros s s' Hch H; simpl in H.
  - by injection H as <-.
  - destruct (update step s) as [s1|e s1] eqn:E; [|discriminate].
    apply (IH s1); [|done]. by apply (update_chained step s).
Qed.

(** X4.  The frames of a computed stack spell out the call chain: frame 0
    is the root frame with the names "root" and "root", and the
    [agent_full_name] of every other frame is the [agent_full_name] of the
    frame below it, a slash, and its own [agent_name]. *)
Theorem frames_spell_the_call_chain (l : list Step) (s : TapeViewStack) :
  run_updates l initial_stack = Ok s →
  (∃ root, stack s !! 0 = Some root
           ∧ agent_name root = "root" ∧ agent_full_name root = "root")
  ∧ ∀ i parent child,
      stack s !! i = Some parent → stack s !! S i = Some child →
      agent_full_name child
      = path_join (agent_full_name parent) (agent_name child).
Proof.
  intros Hrun.
  assert (Hch : chained (frame_names s)).
  { apply (run_updates_chained l initial_stack); [by split | done]. }
  destruct Hch as [Hroot Hchain]. unfold frame_names in *. split.
  - rewrite list_lookup_fmap in Hroot.
    destruct (stack s !! 0) as [root|]; [|discriminate].
    exists root. simpl in Hroot. injection Hroot as Hn Hf. by repeat split.
  - intros i parent child Hp Hc.
    apply (Hchain i (names parent) (names child)).
    + by rewrite list_lookup_fmap, Hp.
    + by rewrite list_lookup_fmap, Hc.
Qed.

Lemma frames_spell_the_call_chain_witness :
  agent_full_name (frame_at 2 stack_inside_c)
  = path_join (agent_full_name (frame_at 1 stack_inside_c))
      (agent_name (frame_at 2 stack_inside_c)).
Proof.
  apply (proj2 (frames_spell_the_call_chain nested_call_steps stack_inside_c
                  ltac:(vm_compute; reflexivity))
           1 (frame_at 1 stack_inside_c) (frame_at 2 stack_inside_c)
           ltac:(vm_compute; reflexivity) ltac:(vm_compute; reflexivity)).
Defined.

(** ** Which frames one [update] touches *)

(** The shape of the stack before and after one [update] that returns. *)
Lemma update_shape step s s' :
  update step s = Ok s' →
  ∃ l x m,
    s = mkStack (l ++ [x]) m
    ∧ match step with
      | Call _ _ _ n =>
          stack s' = l ++ [add_step step x;
                           counted step
                             (new_view n (path_join (agent_full_name x) n))]
      | Respond _ _ _ =>
          ∃ l' y,
            l = l' ++ [y]
            ∧ stack s'
              = l' ++ [counted step
                         (add_step step
                            (with_output x
                               (set_next_node (next_node y + 1) y)))]
      | Jump _ _ n => stack s' = l ++ [counted step (set_next_node n x)]
      | _ => stack s' = l ++ [counted step (add_step step x)]
      end.
Proof.
  intros H. pose proof (update_ok_nonempty _ _ _ H) as [Hne _].
  destruct (stack_snoc s Hne) as (l & x & m & ->).
  exists l, x, m. split; [done|]. destruct step.
  - rewrite update_call in H. by injection H as <-.
  - destruct (list_snoc_cases l) as [->|(l' & y & ->)]; [discriminate|].
    rewrite <- app_assoc in H. simpl in H. rewrite update_respond in H.
    injection H as <-. by exists l', y.
  - rewrite update_broadcast in H. by injection H as <-.
  - rewrite update_jump in H. by injection H as <-.
  - rewrite update_agent_step in H. by injection H as <-.
  - rewrite update_observation in H. by injection H as <-.
  - rewrite update_unsupported in H. discriminate.
Qed.

(** X5.  One [update] touches the top of the stack only.  After a step
    that is not a [Respond], all frames below the frame that was on top
    are what they were; after a [Respond], all frames below the caller's
    frame are what they were. *)
Theorem update_touches_the_top_only (step : Step) (s s' : TapeViewStack) :
  update step s = Ok s' →
  (is_respond step = false →
   take (depth s - 1) (stack s') = take (depth s - 1) (stack s))
  ∧ (is_respond step = true →
     take (depth s - 2) (stack s') = take (depth s - 2) (stack s)).
Proof.
  intros H. destruct (update_shape _ _ _ H) as (l & x & m & -> & Hshape).
  unfold depth; simpl. rewrite length_app; simpl.
  replace (length l + 1 - 1) with (length l) by lia.
  split; intros Hr.
  - rewrite (take_app_length l [x]).
    destruct step; try discriminate; rewrite Hshape; apply take_app_length.
  - destruct step; try discriminate.
    destruct Hshape as (l' & y & -> & ->).
    rewrite length_app; simpl.
    replace (length l' + 1 + 1 - 2) with (length l') by lia.
    rewrite <- app_assoc. by rewrite !take_app_length.
Qed.

Lemma update_touches_the_top_only_witness :
  take 1 (stack stack_inside_b) = take 1 (stack stack_inside_c).
Proof.
  apply (proj2 (update_touches_the_top_only (Respond "root/B/C" "" "")
                  stack_inside_c stack_inside_b ltac:(vm_compute; reflexivity))
           eq_refl).
Defined.

(** ** [next_node] never goes down without a [Jump] *)

Lemma lookup_common_prefix {A} (l : list A) a rest b rest' i v v' :
  (l ++ a :: rest) !! i = Some v →
  (l ++ b :: rest') !! i = Some v' →
  (i < length l ∧ v' = v) ∨ (i = length l ∧ v = a ∧ v' = b) ∨ length l < i.
Proof.
  intros Hv Hv'. destruct (lt_eq_lt_dec i (length l)) as [[Hlt|Heq]|Hgt].
  - left. split; [done|]. rewrite lookup_app_l in Hv, Hv' by done. congruence.
  - right; left. subst i.
    rewrite lookup_app_r, Nat.sub_diag in Hv, Hv' by lia. simpl in *.
    split; [done|]. split; congruence.
  - right; right. done.
Qed.

Lemma counted_next_node step v :
  (next_node v ≤ next_node (counted step v) ≤ next_node v + 1)%Z.
Proof.
  unfold counted. destruct (is_step_by_active_agent step v); [|lia].
  destruct (negb (is_jump step) && _); simpl; lia.
Qed.

Lemma with_output_next_node popped caller :
  next_node (with_output popped caller) = next_node caller.
Proof.
  unfold with_output. by destruct (find (eligible caller) (rev (steps popped))).
Qed.

(** X6.  Without a [Jump], [next_node] never goes down.  A step that is
    not a [Jump] leaves the [next_node] of every frame that stays on the
    stack where it was or moves it up, by at most 1, or by at most 2 for
    the caller's frame at a [Respond]. *)
Theorem next_node_never_goes_down (step : Step) (s s' : TapeViewStack) :
  is_jump step = false →
  update step s = Ok s' →
  ∀ i v v',
    stack s !! i = Some v → stack s' !! i = Some v' →
    (next_node v ≤ next_node v' ≤ next_node v + 2)%Z
    ∧ (is_respond step = false → (next_node v' ≤ next_node v + 1)%Z).
Proof.
  intros Hj H i v v' Hv Hv'.
  destruct (update_shape _ _ _ H) as (l & x & m & -> & Hshape). simpl in Hv.
  destruct step; try discriminate.
  - rewrite Hshape in Hv'.
    destruct (lookup_common_prefix _ _ _ _ _ _ _ _ Hv Hv')
      as [[_ ->]|[(_ & -> & ->)|Hgt]]; [lia | simpl; lia |].
    apply lookup_lt_Some in Hv. rewrite length_app in Hv; simpl in Hv. lia.
  - destruct Hshape as (l' & y & -> & Hst). rewrite Hst in Hv'.
    rewrite <- app_assoc in Hv. simpl in Hv.
    destruct (lookup_common_prefix _ _ _ _ _ _ _ _ Hv Hv')
      as [[_ ->]|[(_ & -> & ->)|Hgt]]; [lia | |].
    + pose proof (counted_next_node (Respond by_ prompt_id content)
                    (add_step (Respond by_ prompt_id content)
                       (with_output x
                          (set_next_node (next_node y + 1) y)))) as Hc.
      simpl in Hc. rewrite with_output_next_node in Hc. simpl in Hc.
      split; [lia | discriminate].
    + apply lookup_lt_Some in Hv'. rewrite length_app in Hv'; simpl in Hv'. lia.
  - rewrite Hshape in Hv'.
    destruct (lookup_common_prefix _ _ _ _ _ _ _ _ Hv Hv')
      as [[_ ->]|[(_ & -> & ->)|Hgt]]; [lia | |].
    + pose proof (counted_next_node (Broadcast by_ prompt_id content from_ to)
                    (add_step (Broadcast by_ prompt_id content from_ to) x)) as Hc.
      simpl in Hc. lia.
    + apply lookup_lt_Some in Hv. rewrite length_app in Hv; simpl in Hv. lia.
  - rewrite Hshape in Hv'.
    destruct (lookup_common_prefix _ _ _ _ _ _ _ _ Hv Hv')
      as [[_ ->]|[(_ & -> & ->)|Hgt]]; [lia | |].
    + pose proof (counted_next_node (AgentStep kind0 by_ prompt_id payload)
                    (add_step (AgentStep kind0 by_ prompt_id payload) x)) as Hc.
      simpl in Hc. lia.
    + apply lookup_lt_Some in Hv. rewrite length_app in Hv; simpl in Hv. lia.
  - rewrite Hshape in Hv'.
    destruct (lookup_common_prefix _ _ _ _ _ _ _ _ Hv Hv')
      as [[_ ->]|[(_ & -> & ->)|Hgt]]; [lia | simpl; lia |].
    apply lookup_lt_Some in Hv. rewrite length_app in Hv; simpl in Hv. lia.
  - rewrite update_unsupported in H. discriminate.
Qed.

Lemma next_node_never_goes_down_witness :
  (next_node (frame_at 1 stack_inside_c)
   ≤ next_node (frame_at 1 stack_inside_b)
   ≤ next_node (frame_at 1 stack_inside_c) + 2)%Z.
Proof.
  apply (next_node_never_goes_down (Respond "root/B/C" "" "")
           stack_inside_c stack_inside_b eq_refl ltac:(vm_compute; reflexivity)
           1 (frame_at 1 stack_inside_c) (frame_at 1 stack_inside_b)
           ltac:(vm_compute; reflexivity) ltac:(vm_compute; reflexivity)).
Defined.

(** ** Paths: splitting and joining *)

Lemma split_nonempty s : PyStr.split s ≠ [].
Proof.
  destruct s as [|ch s]; simpl; [done|].
  destruct (Ascii.eqb ch PyStr.slash); [done|]. by destruct (PyStr.split s).
Qed.

(** Splitting a joined path gives the segments of the two parts. *)
Lemma split_path_join a b :
  PyStr.split (path_join a b) = PyStr.split a ++ PyStr.split b.
Proof.
  unfold path_join. induction a as [|ch a IH]; [done|].
  change (String.append (String ch a) (String.append "/" b))
    with (String ch (String.append a (String.append "/" b))).
  cbn [PyStr.split]. rewrite IH.
  destruct (Ascii.eqb ch PyStr.slash); [done|].
  pose proof (split_nonempty a) as Hne.
  by destruct (PyStr.split a).
Qed.

Lemma split_no_slash s : PyStr.has_slash s = false → PyStr.split s = [s].
Proof.
  induction s as [|ch s IH]; [done|]. cbn [PyStr.has_slash PyStr.split].
  destruct (Ascii.eqb ch PyStr.slash); [done|]. simpl.
  intros Hs. by rewrite (IH Hs).
Qed.

Lemma list_eqb_eq a b : PyStr.list_eqb a b = true ↔ a = b.
Proof.
  revert b. induction a as [|x a IH]; intros [|y b]; simpl; try done.
  rewrite andb_true_iff, String.eqb_eq, IH. split.
  - by intros [-> ->].
  - intros H. by injection H.
Qed.

Lemma has_slash_path_join a b : PyStr.has_slash (path_join a b) = true.
Proof.
  unfold path_join. induction a as [|ch a IH]; [done|]. simpl.
  rewrite IH. by destruct (Ascii.eqb ch PyStr.slash).
Qed.

(** Stripping the last segment undoes the join with a name that holds no
    slash. *)
Lemma rsplit1_head_path_join a n :
  PyStr.has_slash n = false → PyStr.rsplit1_head (path_join a n) = a.
Proof.
  intros Hn. induction a as [|ch a IH].
  - change (path_join "" n) with (String "/" n).
    cbn [PyStr.rsplit1_head]. by rewrite Hn.
  - change (path_join (String ch a) n) with (String ch (path_join a n)).
    cbn [PyStr.rsplit1_head]. by rewrite has_slash_path_join, IH.
Qed.

Lemma rsplit1_head_no_slash b :
  PyStr.has_slash b = false → PyStr.rsplit1_head b = b.
Proof.
  destruct b as [|ch b]; [done|]. simpl.
  destruct (Ascii.eqb ch PyStr.slash); [done|]. simpl. by intros ->.
Qed.

Lemma rsplit1_head_shorter b :
  PyStr.has_slash b = true →
  String.length (PyStr.rsplit1_head b) < String.length b.
Proof.
  induction b as [|ch b IH]; [done|]. cbn [PyStr.has_slash PyStr.rsplit1_head].
  destruct (PyStr.has_slash b) eqn:Hb.
  - intros _. simpl. specialize (IH eq_refl). lia.
  - rewrite orb_false_r. intros ->. simpl. lia.
Qed.

Lemma path_join_longer a b : String.length a < String.length (path_join a b).
Proof.
  unfold path_join. induction a as [|ch a IH]; simpl; lia.
Qed.

(** A step by [full + "/" + name] is never attributed to the frame whose
    full name is [full]. *)
Lemma callee_step_not_by_caller step caller n :
  step_by step = path_join (agent_full_name caller) n →
  is_step_by_active_agent step caller = false.
Proof.
  intros Hby. unfold is_step_by_active_agent.
  destruct (is_agent_step step); [simpl|done].
  rewrite Hby, split_path_join. unfold PyStr.drop_first.
  pose proof (split_nonempty (agent_full_name caller)) as Hc.
  pose proof (split_nonempty n) as Hn.
  destruct (PyStr.split (agent_full_name caller)) as [|seg segs]; [done|].
  simpl. rewrite !drop_0.
  destruct (PyStr.list_eqb (segs ++ PyStr.split n) segs) eqn:E; [|done].
  apply list_eqb_eq in E. apply (f_equal length) in E.
  rewrite length_app in E. destruct (PyStr.split n); [done|]. simpl in E. lia.
Qed.

(** X7.  The active-agent test ignores the first segment of both paths.
    A step of an agent whose [by] and the frame's [agent_full_name] agree
    from the second segment on is attributed to the frame, whatever the
    two first segments are; in a frame whose full name is one segment,
    such as the root frame, every agent step whose [by] is one segment is
    attributed to the frame. *)
Theorem active_agent_test_ignores_first_segment
    (step : Step) (frame : TapeView) (first first' rest : string) :
  is_agent_step step = true →
  PyStr.has_slash first = false →
  PyStr.has_slash first' = false →
  (step_by step = path_join first rest →
   agent_full_name frame = path_join first' rest →
   is_step_by_active_agent step frame = true)
  ∧ (step_by step = first →
     agent_full_name frame = first' →
     is_step_by_active_agent step frame = true).
Proof.
  intros Hagent Hf Hf'. unfold is_step_by_active_agent. rewrite Hagent. simpl.
  split; intros -> ->.
  - rewrite !split_path_join.
    rewrite (split_no_slash first Hf), (split_no_slash first' Hf'). simpl.
    rewrite ?drop_0. by apply list_eqb_eq.
  - by rewrite (split_no_slash first Hf), (split_no_slash first' Hf').
Qed.

Lemma active_agent_test_ignores_first_segment_witness :
  is_step_by_active_agent (AgentStep "thought" "main/B" "p1" "x")
    (new_view "B" "root/B") = true
  ∧ is_step_by_active_agent (AgentStep "thought" "" "p1" "x")
      (new_view "root" "root") = true.
Proof.
  split.
  - apply (proj1 (active_agent_test_ignores_first_segment
                    (AgentStep "thought" "main/B" "p1" "x")
                    (new_view "B" "root/B") "main" "root" "B"
                    eq_refl eq_refl eq_refl)); reflexivity.
  - apply (proj2 (active_agent_test_ignores_first_segment
                    (AgentStep "thought" "" "p1" "x")
                    (new_view "root" "root") "" "root" ""
                    eq_refl eq_refl eq_refl)); reflexivity.
Defined.

(** ** Responding *)

Lemma active_agent_depends_on_full_name step v v' :
  agent_full_name v = agent_full_name v' →
  is_step_by_active_agent step v = is_step_by_active_agent step v'.
Proof. intros H. unfold is_step_by_active_agent. by rewrite H. Qed.

Lemma with_output_full_name popped caller :
  agent_full_name (with_output popped caller) = agent_full_name caller.
Proof.
  unfold with_output. by destruct (find (eligible caller) (rev (steps popped))).
Qed.

Lemma with_output_last_prompt_id popped caller :
  last_prompt_id (with_output popped caller) = last_prompt_id caller.
Proof.
  unfold with_output. by destruct (find (eligible caller) (rev (steps popped))).
Qed.

(** X8.  A subagent call costs the caller exactly one node.  When the
    [Respond] is by a path one segment below the caller's full name, as
    the path of the popped frame is, the caller's [next_node] goes up by
    exactly 1 and its [last_prompt_id] stays, whatever the prompt id of
    the [Respond] and whatever the popped frame holds. *)
Theorem respond_costs_the_caller_one_node
    (s : TapeViewStack) (below : list TapeView) (caller popped : TapeView)
    (n p c : string) :
  stack s = below ++ [caller; popped] →
  ∃ s' caller',
    update (Respond (path_join (agent_full_name caller) n) p c) s = Ok s'
    ∧ stack s' = below ++ [caller']
    ∧ next_node caller' = (next_node caller + 1)%Z
    ∧ last_prompt_id caller' = last_prompt_id caller.
Proof.
  intros Hframes.
  eexists _, _. split; [by apply update_respond_frames|]. split; [done|].
  set (step := Respond _ p c). set (frame := add_step step _).
  assert (Hnot : is_step_by_active_agent step frame = false).
  { rewrite (active_agent_depends_on_full_name step frame caller).
    - by apply (callee_step_not_by_caller step caller n).
    - unfold frame. simpl. by rewrite with_output_full_name. }
  unfold counted. rewrite Hnot. unfold frame. simpl.
  by rewrite with_output_next_node, with_output_last_prompt_id.
Qed.

Lemma respond_costs_the_caller_one_node_witness :
  ∃ s' caller',
    update (Respond "root/B/C" "fresh" "") stack_inside_c = Ok s'
    ∧ stack s' = [frame_at 0 stack_inside_c; caller']
    ∧ next_node caller' = (next_node (frame_at 1 stack_inside_c) + 1)%Z
    ∧ last_prompt_id caller' = last_prompt_id (frame_at 1 stack_inside_c).
Proof.
  apply (respond_costs_the_caller_one_node stack_inside_c
           [frame_at 0 stack_inside_c]
           (frame_at 1 stack_inside_c) (frame_at 2 stack_inside_c)
           "C" "fresh" "" ltac:(vm_compute; reflexivity)).
Defined.

(** X9.  A [Respond] whose [by] holds no slash is filed twice under the
    same path: the receiver, [by] without its last segment, is [by]
    itself.  A [Respond] whose [by] holds a slash is filed once under [by]
    and once under the shorter receiver path. *)
Theorem respond_routes (s : TapeViewStack) (below : list TapeView)
    (caller popped : TapeView) (b p c : string) :
  stack s = below ++ [caller; popped] →
  let step := Respond b p c in
  let receiver := PyStr.rsplit1_head b in
  ∃ s',
    update step s = Ok s'
    ∧ (PyStr.has_slash b = false →
       receiver = b
       ∧ messages_by_agent s' !!! b = (messages_by_agent s !!! b) ++ [step; step])
    ∧ (PyStr.has_slash b = true →
       receiver ≠ b
       ∧ messages_by_agent s' !!! b = (messages_by_agent s !!! b) ++ [step]
       ∧ messages_by_agent s' !!! receiver
         = (messages_by_agent s !!! receiver) ++ [step])
    ∧ ∀ path, path ≠ b → path ≠ receiver →
        messages_by_agent s' !! path = messages_by_agent s !! path.
Proof.
  intros Hframes step receiver.
  eexists. split; [by apply update_respond_frames|]. simpl.
  split; [|split].
  - intros Hb. pose proof (rsplit1_head_no_slash b Hb) as Hrecv.
    split; [done|]. unfold receiver. rewrite Hrecv.
    rewrite !append_message_lookup_eq, <- app_assoc. done.
  - intros Hb. pose proof (rsplit1_head_shorter b Hb) as Hlen.
    assert (Hne : receiver ≠ b).
    { unfold receiver. intros E. rewrite E in Hlen. lia. }
    split; [done|]. fold receiver. split.
    + rewrite append_message_lookup_total_ne by done.
      apply append_message_lookup_eq.
    + rewrite append_message_lookup_eq.
      by rewrite append_message_lookup_total_ne.
  - intros path Hb Hr. fold receiver. by rewrite !append_message_lookup_ne.
Qed.

Lemma respond_routes_witness :
  ∃ s',
    update (Respond "B" "" "") stack_with_input_only = Ok s'
    ∧ messages_by_agent s' !!! "B" = [Respond "B" "" ""; Respond "B" "" ""].
Proof.
  destruct (respond_routes stack_with_input_only []
              (frame_at 0 stack_with_input_only)
              (frame_at 1 stack_with_input_only) "B" "" ""
              ltac:(vm_compute; reflexivity)) as (s' & Hup & Hflat & _ & _).
  exists s'. split; [exact Hup|].
  destruct (Hflat eq_refl) as [_ Htwice]. exact Htwice.
Defined.

(** X10.  A [Call] and the [Respond] that answers it are filed under the
    same two paths.  For an agent name without a slash, running a [Call]
    by [b] to [n] and then a [Respond] by [b + "/" + n] appends the [Call]
    and then the [Respond] to [messages_by_agent[b]] and to
    [messages_by_agent[b + "/" + n]], and changes no other path. *)
Theorem call_and_respond_share_their_routes
    (s : TapeViewStack) (b p c n p' c' : string) :
  stack s ≠ [] →
  PyStr.has_slash n = false →
  let call := Call b p c n in
  let respond := Respond (path_join b n) p' c' in
  ∃ s',
    run_updates [call; respond] s = Ok s'
    ∧ depth s' = depth s
    ∧ messages_by_agent s' !!! b = (messages_by_agent s !!! b) ++ [call; respond]
    ∧ messages_by_agent s' !!! path_join b n
      = (messages_by_agent s !!! path_join b n) ++ [call; respond]
    ∧ ∀ path, path ≠ b → path ≠ path_join b n →
        messages_by_agent s' !! path = messages_by_agent s !! path.
Proof.
  intros Hne Hn call respond.
  destruct (stack_snoc s Hne) as (l & x & m & ->).
  assert (Hbn : path_join b n ≠ b).
  { intros E. pose proof (path_join_longer b n) as Hlen. rewrite E in Hlen. lia. }
  eexists. split.
  { unfold run_updates. unfold call. rewrite update_call.
    unfold respond. rewrite update_respond. reflexivity. }
  unfold depth; simpl. rewrite (rsplit1_head_path_join b n Hn).
  rewrite !length_app; simpl. split; [done|]. split; [|split].
  - rewrite append_message_lookup_eq.
    rewrite !append_message_lookup_total_ne by done.
    rewrite append_message_lookup_eq, <- app_assoc. done.
  - rewrite append_message_lookup_total_ne by done.
    rewrite !append_message_lookup_eq.
    rewrite append_message_lookup_total_ne by done.
    by rewrite <- app_assoc.
  - intros path Hb Hp. by rewrite !append_message_lookup_ne.
Qed.

Lemma call_and_respond_share_their_routes_witness :
  ∃ s',
    run_updates [Call "root" "" "" "B"; Respond "root/B" "" ""] initial_stack
    = Ok s'
    ∧ messages_by_agent s' !!! "root"
      = [Call "root" "" "" "B"; Respond "root/B" "" ""]
    ∧ messages_by_agent s' !!! "root/B"
      = [Call "root" "" "" "B"; Respond "root/B" "" ""].
Proof.
  destruct (call_and_respond_share_their_routes initial_stack
              "root" "" "" "B" "" "" ltac:(simpl; discriminate) eq_refl)
    as (s' & Hrun & _ & Hb & Hbn & _).
  exists s'. repeat split; [exact Hrun | exact Hb | exact Hbn].
Defined.

(** ** Broadcasting to any list of names *)

Lemma broadcast_fold_lookup step b tos path : ∀ m : gmap string (list Step),
  foldl (λ acc to, append_message (path_join b to) step acc) m tos !!! path
  = (m !!! path)
      ++ replicate (length (filter (λ to, path_join b to = path) tos)) step.
Proof.
  induction tos as [|to tos IH]; intros m; simpl.
  - by rewrite app_nil_r.
  - rewrite IH, filter_cons. destruct (decide (path_join b to = path)) as [<-|Hne].
    + rewrite append_message_lookup_eq, <- app_assoc. done.
    + by rewrite append_message_lookup_total_ne.
Qed.

Lemma broadcast_fold_untouched step b tos path : ∀ m : gmap string (list Step),
  (∀ to, to ∈ tos → path_join b to ≠ path) →
  foldl (λ acc to, append_message (path_join b to) step acc) m tos !! path
  = m !! path.
Proof.
  induction tos as [|to tos IH]; intros m Hno; simpl; [done|].
  rewrite IH.
  - apply append_message_lookup_ne. apply Hno, elem_of_cons. by left.
  - intros to' Hto'. apply Hno, elem_of_cons. by right.
Qed.

(** X11.  A [Broadcast] is filed once per entry of [to].  Under every
    path, [messages_by_agent] grows by as many copies of the step as [to]
    has entries that lead to the path, so a name listed twice gets the
    step twice and an empty [to] files nothing; a path no entry leads to
    is not even created. *)
Theorem broadcast_files_once_per_entry
    (s : TapeViewStack) (b p c f : string) (tos : list string) :
  stack s ≠ [] →
  let step := Broadcast b p c f tos in
  ∃ s',
    update step s = Ok s'
    ∧ depth s' = depth s
    ∧ (∀ path,
         messages_by_agent s' !!! path
         = (messages_by_agent s !!! path)
             ++ replicate
                  (length (filter (λ to, path_join b to = path) tos)) step)
    ∧ (∀ path,
         (∀ to, to ∈ tos → path_join b to ≠ path) →
         messages_by_agent s' !! path = messages_by_agent s !! path).
Proof.
  intros Hne step. destruct (stack_snoc s Hne) as (l & x & m & ->).
  eexists. split; [apply update_broadcast|].
  unfold depth, broadcast_messages; simpl. rewrite !length_app; simpl.
  split; [done|]. split.
  - intros path. apply broadcast_fold_lookup.
  - intros path Hno. by apply broadcast_fold_untouched.
Qed.

Lemma broadcast_files_once_per_entry_witness :
  ∃ s',
    update (Broadcast "root" "" "hi" "root" ["X"; "Y"; "X"]) initial_stack = Ok s'
    ∧ messages_by_agent s' !!! "root/X"
      = [Broadcast "root" "" "hi" "root" ["X"; "Y"; "X"];
         Broadcast "root" "" "hi" "root" ["X"; "Y"; "X"]]
    ∧ messages_by_agent s' !! "root/Z" = None.
Proof.
  destruct (broadcast_files_once_per_entry initial_stack "root" "" "hi" "root"
              ["X"; "Y"; "X"] ltac:(simpl; discriminate))
    as (s' & Hup & _ & Hcount & Hrest).
  exists s'. split; [exact Hup|]. split.
  - exact (Hcount "root/X").
  - apply (Hrest "root/Z").
    intros to Hto. repeat (apply elem_of_cons in Hto as [->|Hto]);
      [discriminate.. | by apply elem_of_nil in Hto].
Defined.

(** ** Counting nodes over any run of steps of the active agent *)

(** The number of prompt ids in [prompts] that differ from the one before
    them, the first one being compared with [previous]. *)
Fixpoint prompt_changes (previous : string) (prompts : list string) : nat :=
  match prompts with
  | [] => 0
  | p :: rest =>
      (if String.eqb p previous then 0 else 1) + prompt_changes p rest
  end.

Definition is_plain_agent_step (step : Step) : bool :=
  match step with AgentStep _ _ _ _ => true | _ => false end.

(** X12.  [next_node] counts the changes of the prompt id.  A run of
    plain [AgentStep]s that are all attributed to the agent of the top
    frame is processed without an error, leaves the depth as it is, and
    moves the [next_node] of the top frame up by the number of steps whose
    [prompt_id] differs from the one seen before (for the first step: from
    the [last_prompt_id] of the frame); [last_prompt_id] ends as the
    [prompt_id] of the last step. *)
Theorem next_node_counts_prompt_changes (l : list Step) :
  ∀ (s : TapeViewStack) (frame : TapeView),
    top s = Some frame →
    Forall (λ x, is_plain_agent_step x = true
                 ∧ is_step_by_active_agent x frame = true) l →
    ∃ s' frame',
      run_updates l s = Ok s'
      ∧ top s' = Some frame'
      ∧ depth s' = depth s
      ∧ next_node frame'
        = (next_node frame
           + Z.of_nat (prompt_changes (last_prompt_id frame)
                         (step_prompt_id <$> l)))%Z
      ∧ last_prompt_id frame'
        = default (last_prompt_id frame) (last (step_prompt_id <$> l)).
Proof.
  induction l as [|step l IH]; intros s frame Htop Hall.
  - exists s, frame. simpl. repeat split; [done | lia].
  - apply Forall_cons in Hall as [[Hplain Hactive] Hall].
    destruct step as [| | | |k b p c| |]; try discriminate.
    destruct s as [st m]. unfold top in Htop; simpl in Htop.
    apply last_Some in Htop as [below ->].
    destruct (update_agent_step_counts k b p c below frame m Hactive)
      as (x & Hup & Hname & Hlast & Hnode).
    destruct (IH (mkStack (below ++ [x]) m) x (top_snoc _ _ _)) as
      (s' & frame' & Hrun & Htop' & Hdepth & Hnode' & Hlast').
    { eapply Forall_impl; [exact Hall|]. intros y [Hy1 Hy2]. split; [done|].
      by rewrite (active_agent_depends_on_full_name y x frame). }
    exists s', frame'. simpl run_updates. rewrite Hup.
    split; [done|]. split; [done|]. split.
    { rewrite Hdepth. unfold depth; simpl. by rewrite !length_app. }
    split.
    + rewrite Hnode', Hnode, Hlast. cbn [fmap list_fmap prompt_changes step_prompt_id].
      destruct (String.eqb p (last_prompt_id frame)); lia.
    + rewrite Hlast', Hlast. cbn [fmap list_fmap step_prompt_id].
      change (list_fmap Step string step_prompt_id l) with (step_prompt_id <$> l).
      destruct (step_prompt_id <$> l) as [|q qs] eqn:E; [done|].
      rewrite (last_cons p). by destruct (last (q :: qs)).
Qed.

Lemma next_node_counts_prompt_changes_witness :
  ∃ s' frame',
    run_updates
      [AgentStep "thought" "root" "p1" "a"; AgentStep "action" "root" "p1" "b";
       AgentStep "thought" "root" "p2" "c"; AgentStep "thought" "root" "p1" "d"]
      initial_stack = Ok s'
    ∧ top s' = Some frame'
    ∧ next_node frame' = 3%Z
    ∧ last_prompt_id frame' = "p1".
Proof.
  destruct (next_node_counts_prompt_changes
              [AgentStep "thought" "root" "p1" "a";
               AgentStep "action" "root" "p1" "b";
               AgentStep "thought" "root" "p2" "c";
               AgentStep "thought" "root" "p1" "d"]
              initial_stack (new_view "root" "root") eq_refl
              ltac:(repeat constructor))
    as (s' & frame' & Hrun & Htop & _ & Hnode & Hlast).
  exists s', frame'. repeat split; [exact Hrun | exact Htop | exact Hnode | exact Hlast].
Defined.

(** ** The cache *)

(** X13.  [compute] memoises by identity alone.  After a call that missed
    the cache and returned a stack, every later call with a tape of the
    same identity returns that stack and leaves the cache as it is, also
    when the steps of the tape are not the steps the stack was computed
    from. *)
Theorem compute_memoises_by_identity (tape tape' : Tape)
    (cache : gmap Z TapeViewStack) (s : TapeViewStack) :
  cache !! tape_id tape = None →
  run_updates (tape_steps tape) initial_stack = Ok s →
  tape_id tape' = tape_id tape →
  (compute tape cache).1 = inl s
  ∧ (compute tape cache).2 !! tape_id tape = Some s
  ∧ compute tape' (compute tape cache).2 = (inl s, (compute tape cache).2).
Proof.
  intros Hmiss Hrun Hid. rewrite (compute_miss tape cache Hmiss), Hrun. simpl.
  split; [done|]. split; [apply lookup_insert_eq|].
  apply compute_hit. rewrite Hid. apply lookup_insert_eq.
Qed.

(** The stack of the tape [call_and_return]. *)
Definition stack_of_call_and_return : TapeViewStack :=
  match run_updates call_and_return initial_stack with
  | Ok s => s
  | Raised _ s => s
  end.

Lemma compute_memoises_by_identity_witness :
  compute (mkTape 1 [Unsupported "junk"])
    (compute (mkTape 1 call_and_return) ∅).2
  = (inl stack_of_call_and_return, (compute (mkTape 1 call_and_return) ∅).2).
Proof.
  apply (compute_memoises_by_identity (mkTape 1 call_and_return)
           (mkTape 1 [Unsupported "junk"]) ∅ stack_of_call_and_return
           (lookup_empty _) ltac:(vm_compute; reflexivity) eq_refl).
Defined.

(** X14.  The fold can be resumed.  The stack of a tape that extends
    another tape is what the fold over the added steps makes of the stack
    of the shorter tape; with one added step it is one [update]. *)
Theorem run_updates_resumes (pre post : list Step) (s : TapeViewStack) :
  run_updates pre initial_stack = Ok s →
  run_updates (pre ++ post) initial_stack = run_updates post s
  ∧ ∀ step id (cache : gmap Z TapeViewStack),
      cache !! id = None →
      (compute (mkTape id (pre ++ [step])) cache).1
      = match update step s with
        | Ok s' => inl s'
        | Raised e _ => inr e
        end.
Proof.
  intros Hpre. split.
  - by rewrite run_updates_app, Hpre.
  - intros step id cache Hmiss. rewrite compute_miss by done. simpl.
    rewrite (run_updates_snoc pre step initial_stack s Hpre).
    by destruct (update step s).
Qed.

Lemma run_updates_resumes_witness :
  run_updates (nested_call_steps ++ [Respond "root/B/C" "" ""]) initial_stack
  = run_updates [Respond "root/B/C" "" ""] stack_inside_c.
Proof.
  apply (proj1 (run_updates_resumes nested_call_steps
                  [Respond "root/B/C" "" ""] stack_inside_c
                  ltac:(vm_compute; reflexivity))).
Defined.

(** ** Where an output is stored *)

Lemma dict_set_absent {V} k (v : V) (d : PyDict.t V) :
  k ∉ PyDict.keys d → PyDict.set k v d = d ++ [(k, v)].
Proof.
  unfold PyDict.keys. induction d as [|[k' v'] d IH]; [done|].
  rewrite fmap_cons. cbn [fst PyDict.set]. intros Hk.
  apply not_elem_of_cons in Hk as [Hne Hk].
  destruct (String.eqb k k') eqn:E.
  - apply String.eqb_eq in E. contradiction.
  - by rewrite (IH Hk).
Qed.

Lemma dict_set_length_present {V} k (v : V) (d : PyDict.t V) :
  k ∈ PyDict.keys d → length (PyDict.set k v d) = length d.
Proof.
  intros Hk. pose proof (dict_set_keys k v d) as Hkeys.
  rewrite bool_decide_eq_true_2 in Hkeys by done.
  apply (f_equal length) in Hkeys. unfold PyDict.keys in Hkeys.
  by rewrite !length_fmap in Hkeys.
Qed.

(** X15.  An output replaces the earlier output of the same subagent in
    place.  When a [Respond] pops a frame that has an output [out]: if
    the caller already holds an output under the name of the popped
    frame, the names and their order stay and only the value under that
    name changes; otherwise [out] becomes the last entry, the one
    [get_output(-1)] returns.  The outputs under all other names are
    what they were. *)
Theorem output_replaces_in_place
    (s : TapeViewStack) (below : list TapeView) (caller popped : TapeView)
    (b p c : string) (out : Step) :
  stack s = below ++ [caller; popped] →
  find (eligible caller) (rev (steps popped)) = Some out →
  let name := agent_name popped in
  ∃ s' caller',
    update (Respond b p c) s = Ok s'
    ∧ stack s' = below ++ [caller']
    ∧ get_output (ByName name) caller' = inl out
    ∧ (name ∈ PyDict.keys (outputs_by_subagent caller) →
       PyDict.keys (outputs_by_subagent caller')
       = PyDict.keys (outputs_by_subagent caller))
    ∧ (name ∉ PyDict.keys (outputs_by_subagent caller) →
       outputs_by_subagent caller' = outputs_by_subagent caller ++ [(name, out)]
       ∧ get_output (ByIndex (-1)) caller' = inl out)
    ∧ ∀ other, other ≠ name →
        get_output (ByName other) caller' = get_output (ByName other) caller.
Proof.
  intros Hframes Hfind name.
  eexists _, _. split; [by apply update_respond_frames|]. split; [done|].
  unfold get_output. rewrite counted_outputs. unfold with_output.
  change (eligible (set_next_node (next_node caller + 1) caller))
    with (eligible caller).
  rewrite Hfind. simpl. fold name.
  split; [by rewrite dict_get_set_eq|]. split; [|split].
  - intros Hin. rewrite dict_set_keys. by rewrite bool_decide_eq_true_2.
  - intros Hnot. rewrite (dict_set_absent name out _ Hnot). split; [done|].
    unfold PyDict.values. rewrite fmap_app. simpl.
    set (vals := (outputs_by_subagent caller).*2).
    replace (-1)%Z
      with (Z.of_nat (length vals) - Z.of_nat (length (vals ++ [out])))%Z
      by (rewrite length_app; simpl; lia).
    rewrite (index_negative (vals ++ [out]) (length vals) out); [done|].
    by rewrite lookup_app_r, Nat.sub_diag.
  - intros other Hother. by rewrite dict_get_set_ne.
Qed.

Lemma output_replaces_in_place_witness :
  ∃ s' caller',
    update (Respond "root/B" "" "") stack_inside_b = Ok s'
    ∧ stack s' = [caller']
    ∧ outputs_by_subagent caller'
      = [("B", AgentStep "thought" "root/B" "p1" "result")]
    ∧ get_output (ByIndex (-1)) caller'
      = inl (AgentStep "thought" "root/B" "p1" "result").
Proof.
  destruct (output_replaces_in_place stack_inside_b []
              (frame_at 0 stack_inside_b) (frame_at 1 stack_inside_b)
              "root/B" "" "" (AgentStep "thought" "root/B" "p1" "result")
              ltac:(vm_compute; reflexivity) ltac:(vm_compute; reflexivity))
    as (s' & caller' & Hup & Hst & _ & _ & Hnew & _).
  exists s', caller'. split; [exact Hup|]. split; [exact Hst|].
  apply Hnew. vm_compute. apply not_elem_of_nil.
Defined.

(** ** Calling *)

(** A step by [full] is never attributed to a frame one segment below
    [full]. *)
Lemma caller_step_not_by_callee step frame n :
  agent_full_name frame = path_join (step_by step) n →
  is_step_by_active_agent step frame = false.
Proof.
  intros Hname. unfold is_step_by_active_agent.
  destruct (is_agent_step step); [simpl|done].
  rewrite Hname, split_path_join. unfold PyStr.drop_first.
  pose proof (split_nonempty (step_by step)) as Hc.
  destruct (PyStr.split (step_by step)) as [|seg segs]; [done|].
  simpl. rewrite ?drop_0.
  destruct (PyStr.list_eqb segs (segs ++ PyStr.split n)) eqn:E; [|done].
  apply list_eqb_eq in E. apply (f_equal length) in E.
  rewrite length_app in E. pose proof (split_nonempty n) as Hn.
  destruct (PyStr.split n); [done|]. simpl in E. lia.
Qed.

(** X16.  A [Call] by the active agent counts no node.  When the [by] of
    the [Call] is the full name of the top frame, the only change to that
    frame is the [Call] at the end of its [steps] (and in its bucket of
    [steps_by_kind]); the frame pushed on top of it is a fresh frame for
    the callee: no steps, no outputs, [next_node] 0 and an empty
    [last_prompt_id], whatever the [prompt_id] of the [Call] is. *)
Theorem call_by_active_agent_counts_no_node
    (s : TapeViewStack) (below : list TapeView) (caller : TapeView)
    (p c n : string) :
  stack s = below ++ [caller] →
  let call := Call (agent_full_name caller) p c n in
  ∃ s',
    update call s = Ok s'
    ∧ stack s'
      = below ++ [add_step call caller;
                  new_view n (path_join (agent_full_name caller) n)]
    ∧ next_node (add_step call caller) = next_node caller
    ∧ last_prompt_id (add_step call caller) = last_prompt_id caller
    ∧ outputs_by_subagent (add_step call caller) = outputs_by_subagent caller.
Proof.
  intros Hframes call. destruct s as [st m]. simpl in Hframes. subst st.
  eexists. split; [apply update_call|]. simpl. split; [|done].
  do 3 f_equal. unfold counted.
  by rewrite (caller_step_not_by_callee _ _ n).
Qed.

Lemma call_by_active_agent_counts_no_node_witness :
  ∃ s',
    update (Call "root" "p9" "" "B") initial_stack = Ok s'
    ∧ stack s'
      = [add_step (Call "root" "p9" "" "B") (new_view "root" "root");
         new_view "B" "root/B"].
Proof.
  destruct (call_by_active_agent_counts_no_node initial_stack []
              (new_view "root" "root") "p9" "" "B" eq_refl)
    as (s' & Hup & Hst & _).
  exists s'. split; [exact Hup | exact Hst].
Defined.

(** ** Jumping *)

(** Steps of the active agent that carry the prompt id the frame saw last
    count no node. *)
Lemma same_prompt_keeps_node (l : list Step) :
  ∀ (s : TapeViewStack) (frame : TapeView),
    top s = Some frame →
    Forall (λ x, is_plain_agent_step x = true
                 ∧ is_step_by_active_agent x frame = true
                 ∧ step_prompt_id x = last_prompt_id frame) l →
    ∃ s' frame',
      run_updates l s = Ok s'
      ∧ top s' = Some frame'
      ∧ next_node frame' = next_node frame
      ∧ last_prompt_id frame' = last_prompt_id frame.
Proof.
  induction l as [|step l IH]; intros s frame Htop Hall.
  - by exists s, frame.
  - apply Forall_cons in Hall as [(Hplain & Hactive & Hprompt) Hall].
    destruct step as [| | | |k b p c| |]; try discriminate.
    simpl in Hprompt. subst p.
    destruct s as [st m]. unfold top in Htop; simpl in Htop.
    apply last_Some in Htop as [below ->].
    destruct (update_agent_step_counts k b (last_prompt_id frame) c
                below frame m Hactive)
      as (x & Hup & Hname & Hlast & Hnode).
    rewrite String.eqb_refl in Hnode.
    destruct (IH (mkStack (below ++ [x]) m) x (top_snoc _ _ _)) as
      (s' & frame' & Hrun & Htop' & Hnode' & Hlast').
    { eapply Forall_impl; [exact Hall|]. intros y (Hy1 & Hy2 & Hy3).
      split; [done|]. split.
      - by rewrite (active_agent_depends_on_full_name y x frame).
      - by rewrite Hlast. }
    exists s', frame'. simpl run_updates. rewrite Hup.
    split; [done|]. split; [done|]. split; congruence.
Qed.

(** X17.  A [Jump] of the active agent pins the node for the rest of its
    prompt.  After a [Jump] to [n] that is attributed to the agent of the
    top frame, any run of plain [AgentStep]s of that agent with the
    [prompt_id] of the [Jump] leaves [next_node] at [n]. *)
Theorem jump_pins_the_node_for_its_prompt
    (s : TapeViewStack) (frame : TapeView) (b p : string) (n : Z)
    (l : list Step) :
  top s = Some frame →
  is_step_by_active_agent (Jump b p n) frame = true →
  Forall (λ x, is_plain_agent_step x = true
               ∧ is_step_by_active_agent x frame = true
               ∧ step_prompt_id x = p) l →
  ∃ s' frame',
    run_updates (Jump b p n :: l) s = Ok s'
    ∧ top s' = Some frame'
    ∧ next_node frame' = n
    ∧ last_prompt_id frame' = p.
Proof.
  intros Htop Hjump Hall.
  destruct s as [st m]. unfold top in Htop; simpl in Htop.
  apply last_Some in Htop as [below ->].
  set (jumped := counted (Jump b p n) (set_next_node n frame)).
  assert (Hname : agent_full_name jumped = agent_full_name frame).
  { unfold jumped. by destruct (counted_names (Jump b p n) (set_next_node n frame))
      as [_ ->]. }
  assert (Hnode : next_node jumped = n).
  { unfold jumped. by rewrite counted_jump_next_node. }
  assert (Hlast : last_prompt_id jumped = p).
  { unfold jumped, counted.
    rewrite (active_agent_depends_on_full_name _ (set_next_node n frame) frame)
      by done.
    by rewrite Hjump. }
  destruct (same_prompt_keeps_node l
              (mkStack (below ++ [jumped]) m) jumped (top_snoc _ _ _))
    as (s' & frame' & Hrun & Htop' & Hnode' & Hlast').
  { eapply Forall_impl; [exact Hall|]. intros x (Hx1 & Hx2 & Hx3).
    split; [done|]. split.
    - by rewrite (active_agent_depends_on_full_name x jumped frame).
    - by rewrite Hlast. }
  exists s', frame'. simpl run_updates. rewrite update_jump. fold jumped.
  split; [done|]. split; [done|]. split; congruence.
Qed.

Lemma jump_pins_the_node_for_its_prompt_witness :
  ∃ s' frame',
    run_updates
      [Jump "root" "p1" 5; AgentStep "thought" "root" "p1" "a";
       AgentStep "action" "root" "p1" "b"] initial_stack = Ok s'
    ∧ top s' = Some frame'
    ∧ next_node frame' = 5%Z
    ∧ last_prompt_id frame' = "p1".
Proof.
  apply (jump_pins_the_node_for_its_prompt initial_stack
           (new_view "root" "root") "root" "p1" 5%Z
           [AgentStep "thought" "root" "p1" "a";
            AgentStep "action" "root" "p1" "b"] eq_refl eq_refl).
  repeat constructor.
Defined.

(** ** Where the contents of a stack come from *)

Lemma dict_set_elem {V} k (v : V) (d : PyDict.t V) k' x :
  (k', x) ∈ PyDict.set k v d → (k', x) ∈ d ∨ (k' = k ∧ x = v).
Proof.
  induction d as [|[k0 v0] d IH]; cbn [PyDict.set].
  - intros [E|[]%elem_of_nil]%elem_of_cons. right. by injection E.
  - destruct (String.eqb k k0) eqn:E.
    + apply String.eqb_eq in E as ->.
      intros [Heq|Hin]%elem_of_cons.
      * right. by injection Heq.
      * left. apply elem_of_cons. by right.
    + intros [Heq|Hin]%elem_of_cons.
      * left. apply elem_of_cons. by left.
      * destruct (IH Hin) as [Hd|Hnew]; [|by right].
        left. apply elem_of_cons. by right.
Qed.

Section Provenance.
Variable Q : Step → Prop.

(** The steps of the frame satisfy [Q], and its outputs are among its
    steps. *)
Definition sound_frame (v : TapeView) : Prop :=
  Forall Q (steps v)
  ∧ ∀ name x, (name, x) ∈ outputs_by_subagent v → x ∈ steps v.

Lemma sound_new_view name full : sound_frame (new_view name full).
Proof. split; [constructor|]. intros ? ? []%elem_of_nil. Qed.

Lemma sound_add_step step v : Q step → sound_frame v → sound_frame (add_step step v).
Proof.
  intros Hstep [Hs Ho]. split.
  - rewrite add_step_steps. apply Forall_app. split; [done|]. by constructor.
  - intros name x Hin. rewrite add_step_steps. apply elem_of_app. left.
    by apply (Ho name).
Qed.

Lemma sound_counted step v : sound_frame v → sound_frame (counted step v).
Proof.
  intros [Hs Ho]. split.
  - by rewrite counted_steps.
  - intros name x. rewrite counted_outputs, counted_steps. apply Ho.
Qed.

Lemma sound_with_output popped caller :
  Forall Q (steps popped) → sound_frame caller →
  sound_frame (with_output popped caller).
Proof.
  intros Hp Hc. unfold with_output.
  destruct (find (eligible caller) (rev (steps popped))) as [out|] eqn:E; [|done].
  apply find_some in E as [Hin _]. apply in_rev, list_elem_of_In in Hin.
  assert (Hout : Q out) by (rewrite Forall_forall in Hp; by apply Hp).
  destruct (sound_add_step out caller Hout Hc) as [Hs Ho]. split; [done|].
  intros name x Hx. simpl in Hx. apply dict_set_elem in Hx as [Hold|[_ ->]].
  - exact (Ho name x Hold).
  - change (out ∈ steps caller ++ [out]).
    apply elem_of_app. right. apply elem_of_cons. by left.
Qed.

Lemma sound_update step s s' :
  Q step → Forall sound_frame (stack s) → update step s = Ok s' →
  Forall sound_frame (stack s').
Proof.
  intros Hstep Hall H.
  destruct (update_shape _ _ _ H) as (l & x & m & -> & Hshape). simpl in Hall.
  apply Forall_app in Hall as [Hl Hx]. rewrite Forall_singleton in Hx.
  destruct step.
  - rewrite Hshape. apply Forall_app. split; [done|].
    apply Forall_cons; split; [by apply sound_add_step|]. apply Forall_singleton.
    apply sound_counted, sound_new_view.
  - destruct Hshape as (l' & y & -> & ->).
    apply Forall_app in Hl as [Hl' Hy]. rewrite Forall_singleton in Hy.
    apply Forall_app. split; [done|]. apply Forall_singleton.
    apply sound_counted, sound_add_step; [done|].
    apply sound_with_output; [apply Hx | done].
  - rewrite Hshape. apply Forall_app. split; [done|]. apply Forall_singleton.
    by apply sound_counted, sound_add_step.
  - rewrite Hshape. apply Forall_app. split; [done|]. apply Forall_singleton.
    by apply sound_counted.
  - rewrite Hshape. apply Forall_app. split; [done|]. apply Forall_singleton.
    by apply sound_counted, sound_add_step.
  - rewrite Hshape. apply Forall_app. split; [done|]. apply Forall_singleton.
    by apply sound_counted, sound_add_step.
  - rewrite update_unsupported in H. discriminate.
Qed.

Definition sound_messages (m : gmap string (list Step)) : Prop :=
  map_Forall (λ _ inbox, Forall Q inbox) m.

Lemma sound_append_message key step m :
  Q step → sound_messages m → sound_messages (append_message key step m).
Proof.
  intros Hstep Hm. unfold append_message. apply map_Forall_insert_2; [|done].
  apply Forall_app. split; [|by constructor].
  rewrite lookup_total_alt. destruct (m !! key) as [old|] eqn:E; simpl.
  - by apply (Hm _ _ E).
  - constructor.
Qed.

Lemma sound_routed step m : Q step → sound_messages m → sound_messages (routed step m).
Proof.
  intros Hstep Hm. destruct step; simpl; try done.
  - by apply sound_append_message, sound_append_message.
  - by apply sound_append_message, sound_append_message.
  - unfold broadcast_messages. revert m Hm.
    induction (step_to _) as [|name names IH]; intros m Hm; simpl; [done|].
    by apply IH, sound_append_message.
Qed.

Lemma sound_run l : ∀ s s',
  Forall Q l →
  Forall sound_frame (stack s) → sound_messages (messages_by_agent s) →
  run_updates l s = Ok s' →
  Forall sound_frame (stack s') ∧ sound_messages (messages_by_agent s').
Proof.
  induction l as [|step l IH]; intros s s' HQ Hf Hm H; simpl in H.
  - by injection H as <-.
  - apply Forall_cons in HQ as [Hstep HQ].
    destruct (update step s) as [s1|e s1] eqn:E; [|discriminate].
    apply (IH s1); [done | | | done].
    + by apply (sound_update step s).
    + rewrite (update_messages _ _ _ E). by apply sound_routed.
Qed.
End Provenance.

(** X18.  A computed stack holds nothing but steps of the tape.  Every
    step in the [steps] of a frame and every message under any path is a
    step of the tape the stack was computed from, and every output of a
    frame is one of the steps of that very frame. *)
Theorem stack_holds_only_steps_of_the_tape (l : list Step) (s : TapeViewStack) :
  run_updates l initial_stack = Ok s →
  (∀ v, v ∈ stack s →
     (∀ x, x ∈ steps v → x ∈ l)
     ∧ (∀ name x, (name, x) ∈ outputs_by_subagent v → x ∈ steps v))
  ∧ (∀ path inbox x,
       messages_by_agent s !! path = Some inbox → x ∈ inbox → x ∈ l).
Proof.
  intros Hrun.
  assert (HQ : Forall (λ x, x ∈ l) l) by (by apply Forall_forall).
  assert (Hf0 : Forall (sound_frame (λ x, x ∈ l)) (stack initial_stack))
    by apply Forall_singleton, sound_new_view.
  assert (Hm0 : sound_messages (λ x, x ∈ l) (messages_by_agent initial_stack))
    by apply map_Forall_empty.
  destruct (sound_run (λ x, x ∈ l) l initial_stack s HQ Hf0 Hm0 Hrun) as [Hf Hm].
  split.
  - intros v Hv. rewrite Forall_forall in Hf. destruct (Hf v Hv) as [Hs Ho].
    split; [|done]. intros x Hx. rewrite Forall_forall in Hs. by apply Hs.
  - intros path inbox x Hlook Hx. specialize (Hm path inbox Hlook).
    rewrite Forall_forall in Hm. by apply Hm.
Qed.

Lemma stack_holds_only_steps_of_the_tape_witness :
  AgentStep "thought" "root/B" "p1" "result"
  ∈ nested_call_steps ++ [Respond "root/B/C" "" ""].
Proof.
  apply (proj1 (stack_holds_only_steps_of_the_tape
                  (nested_call_steps ++ [Respond "root/B/C" "" ""])
                  stack_inside_b ltac:(vm_compute; reflexivity))
           (frame_at 1 stack_inside_b)
           ltac:(apply list_elem_of_lookup; exists 1; vm_compute; reflexivity)).
  apply list_elem_of_lookup. exists 1. vm_compute. reflexivity.
Defined.

(** ** Frames and outputs go back to recorded calls *)

(** The frame has recorded a [Call] of the agent [name]. *)
Definition called (v : TapeView) (name : string) : Prop :=
  ∃ call, call ∈ steps v ∧ is_call call = true ∧ step_agent_name call = name.

(** Every frame above the first was called from the frame below it. *)
Definition linked (st : list TapeView) : Prop :=
  ∀ i parent child,
    st !! i = Some parent → st !! S i = Some child →
    called parent (agent_name child).

(** Every key of the outputs is the name of an agent the frame called. *)
Definition outputs_called (v : TapeView) : Prop :=
  ∀ k, k ∈ PyDict.keys (outputs_by_subagent v) → called v k.

Lemma called_mono v v' k :
  (∀ x, x ∈ steps v → x ∈ steps v') → called v k → called v' k.
Proof. intros Hsub (call & Hin & Hc & Hn). exists call. auto. Qed.

Lemma steps_grow_add_step step v x : x ∈ steps v → x ∈ steps (add_step step v).
Proof. intros H. rewrite add_step_steps. apply elem_of_app. by left. Qed.

Lemma steps_grow_with_output popped caller x :
  x ∈ steps caller → x ∈ steps (with_output popped caller).
Proof.
  intros H. unfold with_output.
  destruct (find (eligible caller) (rev (steps popped))); [|done].
  by apply (steps_grow_add_step _ caller).
Qed.

Lemma linked_replace_top l x x' :
  agent_name x' = agent_name x → linked (l ++ [x]) → linked (l ++ [x']).
Proof.
  intros Hname Hl i parent child Hp Hc.
  apply lookup_app_Some in Hc as [Hc|[Hlen Hc]].
  - pose proof (lookup_lt_Some _ _ _ Hc) as Hlt.
    rewrite lookup_app_l in Hp by lia.
    apply (Hl i); by apply lookup_app_l_Some.
  - apply list_lookup_singleton_Some in Hc as [Hi <-].
    rewrite lookup_app_l in Hp by lia. rewrite Hname.
    apply (Hl i); [by apply lookup_app_l_Some|].
    rewrite lookup_app_r by lia. by rewrite Hi.
Qed.

Lemma linked_push l x child :
  called x (agent_name child) → linked (l ++ [x]) → linked (l ++ [x; child]).
Proof.
  intros Hcall Hl i parent c Hp Hc.
  replace (l ++ [x; child]) with ((l ++ [x]) ++ [child]) in Hp, Hc
    by (by rewrite <- app_assoc).
  apply lookup_app_Some in Hc as [Hc|[Hlen Hc]].
  - pose proof (lookup_lt_Some _ _ _ Hc) as Hlt.
    rewrite lookup_app_l in Hp by lia. by apply (Hl i).
  - apply list_lookup_singleton_Some in Hc as [Hi <-].
    rewrite length_app in Hlen, Hi; simpl in Hlen, Hi.
    assert (i = length l) as -> by lia.
    rewrite <- app_assoc, lookup_app_r in Hp by lia.
    rewrite Nat.sub_diag in Hp. simpl in Hp. by injection Hp as <-.
Qed.

Lemma linked_pop l y x :
  linked (l ++ [y; x]) → linked (l ++ [y]) ∧ called y (agent_name x).
Proof.
  intros Hl. split.
  - intros i parent child Hp Hc. apply (Hl i).
    + replace (l ++ [y; x]) with ((l ++ [y]) ++ [x]) by (by rewrite <- app_assoc).
      by apply lookup_app_l_Some.
    + replace (l ++ [y; x]) with ((l ++ [y]) ++ [x]) by (by rewrite <- app_assoc).
      by apply lookup_app_l_Some.
  - apply (Hl (length l)).
    + by rewrite lookup_app_r, Nat.sub_diag.
    + rewrite lookup_app_r by lia.
      by replace (S (length l) - length l) with 1 by lia.
Qed.

Lemma dict_set_key_cases {V} k (v : V) (d : PyDict.t V) k' :
  k' ∈ PyDict.keys (PyDict.set k v d) → k' ∈ PyDict.keys d ∨ k' = k.
Proof.
  rewrite dict_set_keys. destruct (bool_decide (k ∈ PyDict.keys d)); [by left|].
  intros [H|H]%elem_of_app; [by left|]. right.
  apply elem_of_cons in H as [->|H]; [done | by apply elem_of_nil in H].
Qed.

Definition call_linked (s : TapeViewStack) : Prop :=
  linked (stack s) ∧ Forall outputs_called (stack s).

Lemma outputs_called_grow v v' :
  outputs_by_subagent v' = outputs_by_subagent v →
  (∀ x, x ∈ steps v → x ∈ steps v') →
  outputs_called v → outputs_called v'.
Proof.
  intros Ho Hs Hv k Hk. rewrite Ho in Hk.
  apply (called_mono v v' k Hs). by apply Hv.
Qed.

Lemma update_call_linked step s s' :
  call_linked s → update step s = Ok s' → call_linked s'.
Proof.
  intros [Hlink Hout] H.
  destruct (update_shape _ _ _ H) as (l & x & m & -> & Hshape).
  simpl in Hlink, Hout.
  apply Forall_app in Hout as [Hl Hx]. rewrite Forall_singleton in Hx.
  unfold call_linked.
  assert (Keep : ∀ x',
    agent_name x' = agent_name x →
    outputs_by_subagent x' = outputs_by_subagent x →
    (∀ a, a ∈ steps x → a ∈ steps x') →
    stack s' = l ++ [x'] →
    linked (stack s') ∧ Forall outputs_called (stack s')).
  { intros x' Hn Ho Hs ->. split.
    - by apply (linked_replace_top l x).
    - apply Forall_app. split; [done|]. apply Forall_singleton.
      by apply (outputs_called_grow x). }
  destruct step.
  - rewrite Hshape. split.
    + apply linked_push.
      * destruct (counted_names (Call by_ prompt_id content agent_name0)
                    (new_view agent_name0
                       (path_join (agent_full_name x) agent_name0))) as [-> _].
        exists (Call by_ prompt_id content agent_name0). simpl.
        split; [|done]. apply elem_of_app. right. apply elem_of_cons. by left.
      * by apply (linked_replace_top l x).
    + apply Forall_app. split; [done|].
      apply Forall_cons; split.
      * apply (outputs_called_grow x); [done | | done].
        intros a. apply steps_grow_add_step.
      * apply Forall_singleton. intros k Hk. rewrite counted_outputs in Hk.
        by apply elem_of_nil in Hk.
  - destruct Hshape as (l' & y & -> & Hst). rewrite <- app_assoc in Hlink.
    simpl in Hlink. apply linked_pop in Hlink as [Hlink Hcalled].
    apply Forall_app in Hl as [Hl' Hy]. rewrite Forall_singleton in Hy.
    rewrite Hst. split.
    + apply (linked_replace_top l' y); [|done].
      destruct (counted_names (Respond by_ prompt_id content)
                  (add_step (Respond by_ prompt_id content)
                     (with_output x (set_next_node (next_node y + 1) y))))
        as [-> _].
      simpl. unfold with_output. by destruct (find _ _).
    + apply Forall_app. split; [done|]. apply Forall_singleton.
      intros k Hk. rewrite counted_outputs in Hk. simpl in Hk.
      apply (called_mono y).
      { intros a Ha. rewrite counted_steps.
        apply steps_grow_add_step, steps_grow_with_output. exact Ha. }
      unfold with_output in Hk.
      destruct (find _ _) as [out|]; [|by apply Hy].
      simpl in Hk. apply dict_set_key_cases in Hk as [Hk| ->]; [by apply Hy|done].
  - eapply Keep; only 4: exact Hshape.
    + by rewrite (proj1 (counted_names _ _)).
    + by rewrite counted_outputs.
    + intros a Ha. rewrite counted_steps. by apply steps_grow_add_step.
  - eapply Keep; only 4: exact Hshape.
    + by rewrite (proj1 (counted_names _ _)).
    + by rewrite counted_outputs.
    + intros a Ha. by rewrite counted_steps.
  - eapply Keep; only 4: exact Hshape.
    + by rewrite (proj1 (counted_names _ _)).
    + by rewrite counted_outputs.
    + intros a Ha. rewrite counted_steps. by apply steps_grow_add_step.
  - eapply Keep; only 4: exact Hshape.
    + by rewrite (proj1 (counted_names _ _)).
    + by rewrite counted_outputs.
    + intros a Ha. rewrite counted_steps. by apply steps_grow_add_step.
  - rewrite update_unsupported in H. discriminate.
Qed.

Lemma run_updates_call_linked l : ∀ s s',
  call_linked s → run_updates l s = Ok s' → call_linked s'.
Proof.
  induction l as [|step l IH]; intros s s' Hinv H; simpl in H.
  - by injection H as <-.
  - destruct (update step s) as [s1|e s1] eqn:E; [|discriminate].
    apply (IH s1); [|done]. by apply (update_call_linked step s).
Qed.

(** X19.  Frames and outputs go back to recorded calls.  In a computed
    stack, the frame below any frame has recorded, in its [steps], a
    [Call] of the agent the upper frame belongs to; and every name under
    which a frame holds an output is the [agent_name] of a [Call] in the
    [steps] of that frame. *)
Theorem frames_and_outputs_go_back_to_calls (l : list Step) (s : TapeViewStack) :
  run_updates l initial_stack = Ok s →
  (∀ i parent child,
     stack s !! i = Some parent → stack s !! S i = Some child →
     ∃ call, call ∈ steps parent ∧ is_call call = true
             ∧ step_agent_name call = agent_name child)
  ∧ (∀ v name,
       v ∈ stack s → name ∈ PyDict.keys (outputs_by_subagent v) →
       ∃ call, call ∈ steps v ∧ is_call call = true
               ∧ step_agent_name call = name).
Proof.
  intros Hrun.
  assert (Hinit : call_linked initial_stack).
  { split.
    - intros i parent child Hp Hc. destruct i; discriminate.
    - apply Forall_singleton. intros k Hk. by apply elem_of_nil in Hk. }
  destruct (run_updates_call_linked l initial_stack s Hinit Hrun) as [Hlink Hout].
  split; [exact Hlink|]. intros v name Hv Hname.
  rewrite Forall_forall in Hout. by apply (Hout v Hv).
Qed.

Lemma frames_and_outputs_go_back_to_calls_witness :
  ∃ call, call ∈ steps (frame_at 1 stack_inside_c) ∧ is_call call = true
          ∧ step_agent_name call = agent_name (frame_at 2 stack_inside_c).
Proof.
  apply (proj1 (frames_and_outputs_go_back_to_calls nested_call_steps
                  stack_inside_c ltac:(vm_compute; reflexivity))
           1 (frame_at 1 stack_inside_c) (frame_at 2 stack_inside_c)
           ltac:(vm_compute; reflexivity) ltac:(vm_compute; reflexivity)).
Defined.

(** ** After an exception *)

(** X20.  What the two exceptions leave behind.  A [Respond] on a stack
    of one frame raises IndexError after that frame has been popped: the
    stack object is left without a frame, its [messages_by_agent]
    untouched, and every later [update] on it raises IndexError and
    changes nothing.  A step that no case of the dispatch fits raises
    ValueError before anything is changed. *)
Theorem what_the_exceptions_leave_behind
    (s : TapeViewStack) (root : TapeView) (b p c : string) :
  stack s = [root] →
  ∃ broken,
    update (Respond b p c) s = Raised IndexError broken
    ∧ stack broken = []
    ∧ messages_by_agent broken = messages_by_agent s
    ∧ (∀ step, update step broken = Raised IndexError broken)
    ∧ (∀ k, update (Unsupported k) s = Raised ValueError s).
Proof.
  intros Hst. destruct s as [st m]. simpl in Hst. subst st.
  exists (mkStack [] m). split; [apply update_respond_root|].
  split; [done|]. split; [done|]. split.
  - intros step. apply update_empty.
  - intros k. apply (update_unsupported k [] root m).
Qed.

Lemma what_the_exceptions_leave_behind_witness :
  ∃ broken,
    update (Respond "root" "" "") initial_stack = Raised IndexError broken
    ∧ stack broken = []
    ∧ update (Observation "obs" "late") broken = Raised IndexError broken.
Proof.
  destruct (what_the_exceptions_leave_behind initial_stack
              (new_view "root" "root") "root" "" "" eq_refl)
    as (broken & Hup & Hst & _ & Hlater & _).
  exists broken. split; [exact Hup|]. split; [exact Hst | apply Hlater].
Defined.

(** * Output selection, with the attribution spelled out by paths *)

(** A step of an agent whose [by] is the full name of the frame is
    attributed to the frame. *)
Lemma same_path_is_active step frame :
  is_agent_step step = true →
  step_by step = agent_full_name frame →
  is_step_by_active_agent step frame = true.
Proof.
  intros Hagent Hby. unfold is_step_by_active_agent.
  rewrite Hagent, Hby. simpl. by apply list_eqb_eq.
Qed.

(** Root calls B and hands it an input; B produces a result and calls C;
    C produces a step of its own and responds.  The frame of B then holds
    an input of the caller, a result, a [Call], the output of C and a
    [Respond]. *)
Definition nested_output_steps : list Step :=
  [Call "root" "" "" "B";
   AgentStep "user" "root" "p0" "input";
   AgentStep "thought" "root/B" "p1" "result";
   Call "root/B" "p1" "" "C";
   AgentStep "thought" "root/B/C" "p2" "nested";
   Respond "root/B/C" "p2" ""].

Definition stack_after_nested_output : TapeViewStack :=
  match run_updates nested_output_steps initial_stack with
  | Ok s => s
  | Raised _ s => s
  end.

(** C2, as stated, fails.  The frame of B is
    [InputA by the caller, ResultX, Call, ..., Respond], where the dots are
    the output that the nested call of C left in the frame, and the
    [Respond] of B stores that later step as [outputs_by_subagent["B"]],
    not ResultX. *)
Lemma output_selection_counterexample :
  let input_a := AgentStep "user" "root" "p0" "input" in
  let result_x := AgentStep "thought" "root/B" "p1" "result" in
  let nested := AgentStep "thought" "root/B/C" "p2" "nested" in
  let caller := frame_at 0 stack_after_nested_output in
  let popped := frame_at 1 stack_after_nested_output in
  stack stack_after_nested_output = [caller; popped]
  ∧ steps popped
    = [input_a; result_x; Call "root/B" "p1" "" "C"; nested;
       Respond "root/B/C" "p2" ""]
  ∧ is_step_by_active_agent input_a caller = true
  ∧ is_step_by_active_agent result_x caller = false
  ∧ ∃ s' caller',
      update (Respond "root/B" "p1" "") stack_after_nested_output = Ok s'
      ∧ stack s' = [caller']
      ∧ get_output (ByName "B") caller' = inl nested
      ∧ get_output (ByName "B") caller' ≠ inl result_x.
Proof.
  intros input_a result_x nested caller popped.
  split; [vm_compute; reflexivity|]. split; [vm_compute; reflexivity|].
  split; [vm_compute; reflexivity|]. split; [vm_compute; reflexivity|].
  eexists _, _. split; [vm_compute; reflexivity|].
  split; [reflexivity|]. split; [vm_compute; reflexivity|].
  vm_compute. discriminate.
Qed.

(** C2, amended.  Output selection on Respond.  Let the two topmost
    frames be [caller] and [popped].
    - The step that [update] with a [Respond] stores as the caller's
      [outputs_by_subagent[popped.agent_name]], and appends to the
      caller's [steps] just before the [Respond], is the last step of
      [popped] that is neither a [Call] nor a [Respond] and is not
      attributed to the caller's agent.
    - In particular, let the steps of [popped] be an input whose [by] is
      the caller's path, then a result that is an observation or a step
      by a path below the caller's, then only [Call]s, [Respond]s and
      steps whose [by] is the caller's path.  Then the output is the
      result, and the input is attributed to the caller.
    - Whatever [popped] holds, the pop either leaves the caller's outputs
      as they are or stores a step of [popped] that is neither a [Call]
      nor a [Respond] nor a step of an agent whose [by] is the caller's
      path: the caller's own input is never the output. *)
Theorem respond_stores_the_last_eligible_step
    (s : TapeViewStack) (below : list TapeView) (caller popped : TapeView)
    (b p c : string) :
  stack s = below ++ [caller; popped] →
  let step := Respond b p c in
  let name := agent_name popped in
  (∀ (before : list Step) (out : Step) (after : list Step),
     steps popped = before ++ out :: after →
     is_call out || is_respond out = false →
     is_step_by_active_agent out caller = false →
     Forall (λ x, is_call x || is_respond x
                  || is_step_by_active_agent x caller = true) after →
     ∃ s' caller',
       update step s = Ok s'
       ∧ stack s' = below ++ [caller']
       ∧ outputs_by_subagent caller'
         = PyDict.set name out (outputs_by_subagent caller)
       ∧ get_output (ByName name) caller' = inl out
       ∧ steps caller' = steps caller ++ [out; step])
  ∧ (∀ (input_a result_x : Step) (rest : list Step) (n : string),
       steps popped = input_a :: result_x :: rest →
       is_agent_step input_a = true →
       step_by input_a = agent_full_name caller →
       is_call result_x || is_respond result_x = false →
       (is_agent_step result_x = false
        ∨ step_by result_x = path_join (agent_full_name caller) n) →
       Forall (λ x, is_call x || is_respond x = true
                    ∨ (is_agent_step x = true
                       ∧ step_by x = agent_full_name caller)) rest →
       is_step_by_active_agent input_a caller = true
       ∧ ∃ s' caller',
           update step s = Ok s'
           ∧ stack s' = below ++ [caller']
           ∧ get_output (ByName name) caller' = inl result_x
           ∧ steps caller' = steps caller ++ [result_x; step]
           ∧ result_x ≠ input_a)
  ∧ (∀ s' caller',
       update step s = Ok s' →
       stack s' = below ++ [caller'] →
       outputs_by_subagent caller' = outputs_by_subagent caller
       ∨ ∃ out,
           out ∈ steps popped
           ∧ outputs_by_subagent caller'
             = PyDict.set name out (outputs_by_subagent caller)
           ∧ is_call out || is_respond out = false
           ∧ ¬ (is_agent_step out = true
                ∧ step_by out = agent_full_name caller)).
Proof.
  intros Hframes step name.
  pose proof (update_respond_frames s below caller popped b p c Hframes) as Hup.
  cbv zeta in Hup. fold step in Hup.
  set (caller1 := set_next_node (next_node caller + 1) caller) in Hup.
  assert (General : ∀ before out after,
    steps popped = before ++ out :: after →
    is_call out || is_respond out = false →
    is_step_by_active_agent out caller = false →
    Forall (λ x, is_call x || is_respond x
                 || is_step_by_active_agent x caller = true) after →
    ∃ s' caller',
      update step s = Ok s'
      ∧ stack s' = below ++ [caller']
      ∧ outputs_by_subagent caller'
        = PyDict.set name out (outputs_by_subagent caller)
      ∧ get_output (ByName name) caller' = inl out
      ∧ steps caller' = steps caller ++ [out; step]).
  { intros before out after Hsteps Hkind Hby Hafter.
    eexists _, _. split; [exact Hup|]. split; [done|].
    assert (Hfind : find (eligible caller1) (rev (steps popped)) = Some out).
    { rewrite Hsteps. apply find_last_eligible.
      - unfold eligible. change (is_step_by_active_agent out caller1)
          with (is_step_by_active_agent out caller). by rewrite Hkind, Hby.
      - eapply Forall_impl; [exact Hafter|]. intros x Hx. cbv beta in Hx.
        unfold eligible. change (is_step_by_active_agent x caller1)
          with (is_step_by_active_agent x caller).
        destruct (is_call x || is_respond x); [done|].
        simpl in Hx. simpl. by rewrite Hx. }
    unfold get_output. rewrite counted_outputs, counted_steps.
    unfold with_output. rewrite Hfind. simpl. fold name.
    rewrite dict_get_set_eq, <- app_assoc. by simpl. }
  split; [exact General|]. split.
  - intros input_a result_x rest n Hsteps Hagent Hby Hkind Hresult Hrest.
    pose proof (same_path_is_active input_a caller Hagent Hby) as Hin.
    assert (Hout : is_step_by_active_agent result_x caller = false).
    { destruct Hresult as [Hno|Hpath].
      - unfold is_step_by_active_agent. by rewrite Hno.
      - by apply (callee_step_not_by_caller result_x caller n). }
    split; [done|].
    destruct (General [input_a] result_x rest) as
      (s' & caller' & H1 & H2 & _ & H4 & H5); [done | done | done | |].
    + eapply Forall_impl; [exact Hrest|]. intros x Hx. cbv beta in Hx.
      destruct Hx as [Hx|[Hx1 Hx2]]; [by rewrite Hx|].
      rewrite (same_path_is_active x caller Hx1 Hx2). apply orb_true_r.
    + exists s', caller'. repeat split; try done.
      intros ->. by rewrite Hin in Hout.
  - intros s' caller' Hs' Hst. rewrite Hup in Hs'. injection Hs' as <-.
    simpl in Hst. apply app_inv_head in Hst. injection Hst as <-.
    rewrite counted_outputs. simpl. unfold with_output.
    destruct (find (eligible caller1) (rev (steps popped))) as [out|] eqn:E;
      [|by left].
    right. exists out. apply find_some in E as [Hin Hel].
    apply in_rev, list_elem_of_In in Hin.
    unfold eligible in Hel. apply andb_true_iff in Hel as [Hk Ha].
    apply negb_true_iff in Hk, Ha.
    change (is_step_by_active_agent out caller1)
      with (is_step_by_active_agent out caller) in Ha.
    repeat split; try done.
    intros [Hagent Hby]. by rewrite (same_path_is_active out caller) in Ha.
Qed.

Lemma respond_stores_the_last_eligible_step_witness :
  is_step_by_active_agent (AgentStep "user" "root" "p0" "input")
    (frame_at 0 stack_inside_b) = true
  ∧ ∃ s' caller',
      update (Respond "root/B" "" "") stack_inside_b = Ok s'
      ∧ stack s' = [] ++ [caller']
      ∧ get_output (ByName (agent_name (frame_at 1 stack_inside_b))) caller'
        = inl (AgentStep "thought" "root/B" "p1" "result")
      ∧ steps caller'
        = steps (frame_at 0 stack_inside_b)
          ++ [AgentStep "thought" "root/B" "p1" "result";
              Respond "root/B" "" ""]
      ∧ AgentStep "thought" "root/B" "p1" "result"
        ≠ AgentStep "user" "root" "p0" "input".
Proof.
  apply (proj1 (proj2 (respond_stores_the_last_eligible_step stack_inside_b []
                         (frame_at 0 stack_inside_b) (frame_at 1 stack_inside_b)
                         "root/B" "" "" ltac:(vm_compute; reflexivity)))
           (AgentStep "user" "root" "p0" "input")
           (AgentStep "thought" "root/B" "p1" "result")
           [Call "root/B" "p1" "" "C"; Respond "root/B/C" "" ""] "B"
           ltac:(vm_compute; reflexivity) eq_refl ltac:(vm_compute; reflexivity)
           eq_refl ltac:(right; vm_compute; reflexivity)).
  repeat constructor.
Defined.

(** * Frames as objects

    Python holds every frame as an object of its own: [self.stack] is a
    list of references, [top] and [new_top] are references, and a method
    of a frame mutates the object behind the reference.  What reference
    [TapeView(...)] returns is the allocator's business; it is only known
    to differ from the references of the frames that are on the stack.
    This part runs the same methods on references and a store of frame
    objects, for any such allocator and over any store, and reads the
    frames back by value.  The containers of a frame ([steps],
    [steps_by_kind], [outputs_by_subagent]) belong to the one frame and
    stay inside the frame object. *)

Definition ref : Type := nat.

Record ObjState : Type := mkObjState {
  objects : ref → TapeView;
  frame_refs : list ref;
  obj_messages : gmap string (list Step)
}.

Inductive ObjOutcome : Type :=
| ObjOk (st : ObjState)
| ObjRaised (e : Exn) (st : ObjState).

(** The store with the object behind [r] replaced. *)
Definition set_object (r : ref) (v : TapeView) (store : ref → TapeView)
    : ref → TapeView :=
  λ r', if decide (r' = r) then v else store r'.

(** [self.stack[-1]], a reference *)
Definition obj_top (st : ObjState) : option ref := last (frame_refs st).

(** A mutation of the object behind [r]. *)
Definition obj_mutate (r : ref) (f : TapeView → TapeView) (st : ObjState)
    : ObjState :=
  mkObjState (set_object r (f (objects st r)) (objects st))
    (frame_refs st) (obj_messages st).

(** [self.stack.pop()] *)
Definition obj_pop (st : ObjState) : ObjState :=
  mkObjState (objects st) (removelast (frame_refs st)) (obj_messages st).

(** [self.messages_by_agent[key].append(step)] *)
Definition obj_route (key : string) (step : Step) (st : ObjState) : ObjState :=
  mkObjState (objects st) (frame_refs st)
    (append_message key step (obj_messages st)).

Section ObjectMethods.
(** The reference that the next [TapeView(...)] returns. *)
Variable alloc : ObjState → ref.

(** [self.stack.append(TapeView(...))] *)
Definition obj_push_new (view : TapeView) (st : ObjState) : ObjState :=
  let fresh := alloc st in
  mkObjState (set_object fresh view (objects st))
    (frame_refs st ++ [fresh]) (obj_messages st).

Definition obj_put_new_view_on_stack (step : Step) (st : ObjState) : ObjOutcome :=
  match obj_top st with
  | None => ObjRaised IndexError st
  | Some top_ref =>
      let st1 := obj_mutate top_ref (add_step step) st in
      let st2 :=
        obj_push_new
          (new_view (step_agent_name step)
             (path_join (agent_full_name (objects st1 top_ref))
                (step_agent_name step))) st1 in
      let receiver := path_join (step_by step) (step_agent_name step) in
      let st3 := obj_route (step_by step) step st2 in
      ObjOk (obj_route receiver step st3)
  end.

Definition obj_broadcast (step : Step) (st : ObjState) : ObjOutcome :=
  match obj_top st with
  | None => ObjRaised IndexError st
  | Some top_ref =>
      let st1 := obj_mutate top_ref (add_step step) st in
      ObjOk (foldl (λ acc to, obj_route (path_join (step_by step) to) step acc)
               st1 (step_to step))
  end.

Fixpoint obj_select_output (popped_name : string) (new_top : ref)
    (reversed_steps : list Step) (st : ObjState) : ObjState :=
  match reversed_steps with
  | [] => st
  | top_step :: rest =>
      if negb (is_call top_step || is_respond top_step)
         && negb (is_step_by_active_agent top_step (objects st new_top))
      then obj_mutate new_top
             (λ v, set_output popped_name top_step (add_step top_step v)) st
      else obj_select_output popped_name new_top rest st
  end.

Definition obj_pop_view_from_stack (step : Step) (st : ObjState) : ObjOutcome :=
  match obj_top st with
  | None => ObjRaised IndexError st
  | Some top_ref =>
      let st1 := obj_pop st in
      match obj_top st1 with
      | None => ObjRaised IndexError st1
      | Some new_top =>
          let st2 :=
            obj_mutate new_top (λ v, set_next_node (next_node v + 1) v) st1 in
          let st3 :=
            obj_select_output (agent_name (objects st2 top_ref)) new_top
              (rev (steps (objects st2 top_ref))) st2 in
          let receiver := PyStr.rsplit1_head (step_by step) in
          let st4 := obj_route (step_by step) step st3 in
          let st5 := obj_route receiver step st4 in
          ObjOk (obj_mutate new_top (add_step step) st5)
      end
  end.

(** The [match] of [update]; [top_ref] is the [top] that [update] has read
    before. *)
Definition obj_dispatch (top_ref : ref) (step : Step) (st : ObjState)
    : ObjOutcome :=
  match step with
  | Call _ _ _ _ => obj_put_new_view_on_stack step st
  | Broadcast _ _ _ _ _ => obj_broadcast step st
  | Respond _ _ _ => obj_pop_view_from_stack step st
  | Jump _ _ n => ObjOk (obj_mutate top_ref (set_next_node n) st)
  | AgentStep _ _ _ _ => ObjOk (obj_mutate top_ref (add_step step) st)
  | Observation _ _ => ObjOk (obj_mutate top_ref (add_step step) st)
  | Unsupported _ => ObjRaised ValueError st
  end.

Definition obj_count_node (step : Step) (st : ObjState) : ObjOutcome :=
  match obj_top st with
  | None => ObjRaised IndexError st
  | Some top_ref =>
      if is_step_by_active_agent step (objects st top_ref) then
        let st1 :=
          if negb (is_jump step)
             && negb (String.eqb (step_prompt_id step)
                        (last_prompt_id (objects st top_ref)))
          then obj_mutate top_ref (λ v, set_next_node (next_node v + 1) v) st
          else st in
        ObjOk (obj_mutate top_ref (set_last_prompt_id (step_prompt_id step)) st1)
      else ObjOk st
  end.

Definition obj_update (step : Step) (st : ObjState) : ObjOutcome :=
  match obj_top st with
  | None => ObjRaised IndexError st
  | Some top_ref =>
      match obj_dispatch top_ref step st with
      | ObjRaised e st' => ObjRaised e st'
      | ObjOk st1 => obj_count_node step st1
      end
  end.

Fixpoint obj_run_updates (l : list Step) (st : ObjState) : ObjOutcome :=
  match l with
  | [] => ObjOk st
  | step :: rest =>
      match obj_update step st with
      | ObjOk st' => obj_run_updates rest st'
      | ObjRaised e st' => ObjRaised e st'
      end
  end.

(** [TapeViewStack(stack=[TapeView(agent_name="root", ...)])] over the
    store [store]. *)
Definition obj_initial (store : ref → TapeView) : ObjState :=
  obj_push_new (new_view "root" "root") (mkObjState store [] ∅).

(** [compute]: the stack object (its references and its messages) or the
    exception, the store afterwards and the cache afterwards. *)
Definition obj_compute (tape : Tape) (store : ref → TapeView)
    (cache : gmap Z (list ref * gmap string (list Step)))
    : (list ref * gmap string (list Step) + Exn)
      * (ref → TapeView) * gmap Z (list ref * gmap string (list Step)) :=
  match cache !! tape_id tape with
  | Some cached_view_stack => (inl cached_view_stack, store, cache)
  | None =>
      match obj_run_updates (tape_steps tape) (obj_initial store) with
      | ObjOk st =>
          (inl (frame_refs st, obj_messages st), objects st,
           <[tape_id tape := (frame_refs st, obj_messages st)]> cache)
      | ObjRaised e st => (inr e, objects st, cache)
      end
  end.
End ObjectMethods.

(** The frames behind the references, by value. *)
Definition view_of (st : ObjState) : TapeViewStack :=
  mkStack (objects st <$> frame_refs st) (obj_messages st).

Definition outcome_of (o : ObjOutcome) : Outcome :=
  match o with
  | ObjOk st => Ok (view_of st)
  | ObjRaised e st => Raised e (view_of st)
  end.

(** What [compute] returned, with the frames read from the store it left. *)
Definition result_view
    (r : (list ref * gmap string (list Step) + Exn)
         * (ref → TapeView) * gmap Z (list ref * gmap string (list Step)))
    : TapeViewStack + Exn :=
  match r.1.1 with
  | inl (refs, messages) => inl (mkStack (r.1.2 <$> refs) messages)
  | inr e => inr e
  end.

(** ** The frames read back by value follow the value model *)

Section ReadBack.
Implicit Types (st : ObjState) (r t : ref) (f : TapeView → TapeView).

(** The frames on the stack are different objects. *)
Definition distinct st : Prop := NoDup (frame_refs st).

Lemma view_top st : top (view_of st) = objects st <$> obj_top st.
Proof. unfold top, obj_top. simpl. apply fmap_last. Qed.

Lemma obj_top_snoc st t : obj_top st = Some t → ∃ l, frame_refs st = l ++ [t].
Proof. unfold obj_top. intros H. by apply last_Some in H. Qed.

Lemma fmap_set_object_other r v (store : ref → TapeView) (l : list ref) :
  r ∉ l → set_object r v store <$> l = store <$> l.
Proof.
  intros Hr. apply list_fmap_ext. intros i x Hx. unfold set_object.
  destruct (decide (x = r)) as [->|]; [|done].
  exfalso. apply Hr. apply list_elem_of_lookup. by exists i.
Qed.

Lemma set_object_same r v (store : ref → TapeView) : set_object r v store r = v.
Proof. unfold set_object. by destruct (decide (r = r)). Qed.

Lemma set_object_other r r' v (store : ref → TapeView) :
  r' ≠ r → set_object r v store r' = store r'.
Proof. intros H. unfold set_object. by destruct (decide (r' = r)). Qed.

Lemma view_mutate st t f :
  distinct st → obj_top st = Some t →
  view_of (obj_mutate t f st) = modify_top f (view_of st).
Proof.
  intros Hd Ht. destruct (obj_top_snoc st t Ht) as [l Hl].
  unfold distinct in Hd. unfold view_of, obj_mutate. simpl. rewrite Hl in *.
  apply NoDup_app in Hd as (_ & Hnot & _).
  assert (Ht' : t ∉ l).
  { intros Hin. apply (Hnot t Hin). apply elem_of_cons. by left. }
  rewrite !fmap_snoc, modify_top_snoc, set_object_same.
  by rewrite fmap_set_object_other.
Qed.

Lemma removelast_fmap {A B} (g : A → B) (l : list A) :
  removelast (g <$> l) = g <$> removelast l.
Proof.
  destruct (last l) as [x|] eqn:E.
  - apply last_Some in E as [l' ->]. by rewrite fmap_snoc, !removelast_last.
  - apply last_None in E as ->. done.
Qed.

Lemma view_pop st : view_of (obj_pop st) = pop (view_of st).
Proof. unfold view_of, obj_pop, pop. simpl. by rewrite removelast_fmap. Qed.

Lemma view_route key step st :
  view_of (obj_route key step st) = route key step (view_of st).
Proof. reflexivity. Qed.

Lemma distinct_pop st : distinct st → distinct (obj_pop st).
Proof.
  unfold distinct, obj_pop. simpl. intros Hd.
  destruct (last (frame_refs st)) as [x|] eqn:E.
  - apply last_Some in E as [l' E]. rewrite E in *. rewrite removelast_last.
    by apply NoDup_app in Hd as (? & _ & _).
  - apply last_None in E. rewrite E. constructor.
Qed.

Variable alloc : ObjState → ref.
Hypothesis alloc_fresh : ∀ st, alloc st ∉ frame_refs st.

Lemma view_push_new view st :
  view_of (obj_push_new alloc view st) = push view (view_of st).
Proof.
  unfold view_of, obj_push_new, push. simpl.
  rewrite fmap_snoc, set_object_same.
  by rewrite fmap_set_object_other by apply alloc_fresh.
Qed.

Lemma distinct_push_new view st : distinct st → distinct (obj_push_new alloc view st).
Proof.
  unfold distinct, obj_push_new. simpl. intros Hd.
  apply NoDup_app. split; [done|]. split; [|apply NoDup_singleton].
  intros x Hx [->|[]%elem_of_nil]%elem_of_cons. by apply (alloc_fresh st).
Qed.
End ReadBack.

Section Simulation.
Variable alloc : ObjState → ref.
Hypothesis alloc_fresh : ∀ st, alloc st ∉ frame_refs st.

Lemma refs_select_output name u rsteps st :
  frame_refs (obj_select_output name u rsteps st) = frame_refs st.
Proof.
  induction rsteps as [|top_step rest IH]; simpl; [done|].
  by destruct (negb (is_call top_step || is_respond top_step) && _).
Qed.

Lemma view_select_output name u rsteps st :
  distinct st → obj_top st = Some u →
  view_of (obj_select_output name u rsteps st)
  = select_output name (objects st u) rsteps (view_of st).
Proof.
  intros Hd Hu. induction rsteps as [|top_step rest IH]; simpl; [done|].
  destruct (negb (is_call top_step || is_respond top_step) && _); [|done].
  by apply view_mutate.
Qed.

Lemma refs_broadcast_fold step b tos : ∀ st,
  frame_refs (foldl (λ acc to, obj_route (path_join b to) step acc) st tos)
  = frame_refs st.
Proof. induction tos as [|to tos IH]; intros st; simpl; [done|]. by rewrite IH. Qed.

Lemma view_broadcast_fold step b tos : ∀ st,
  view_of (foldl (λ acc to, obj_route (path_join b to) step acc) st tos)
  = foldl (λ acc to, route (path_join b to) step acc) (view_of st) tos.
Proof. induction tos as [|to tos IH]; intros st; simpl; [done|]. by rewrite IH. Qed.

(** Every method on references does to the frames read back by value
    what the method of the value model does, exceptions included, and
    leaves the frames on the stack different objects. *)
Lemma put_new_view_read_back step st :
  distinct st →
  outcome_of (obj_put_new_view_on_stack alloc step st)
  = put_new_view_on_stack step (view_of st)
  ∧ ∀ st', obj_put_new_view_on_stack alloc step st = ObjOk st' → distinct st'.
Proof.
  intros Hd. unfold obj_put_new_view_on_stack, put_new_view_on_stack.
  rewrite view_top. destruct (obj_top st) as [t|] eqn:Ht; simpl; [|done].
  set (st1 := obj_mutate t (add_step step) st).
  set (view := new_view (step_agent_name step)
                 (path_join (agent_full_name (objects st1 t))
                    (step_agent_name step))).
  split.
  - rewrite !view_route, (view_push_new alloc alloc_fresh). unfold st1 at 1.
    rewrite view_mutate by done. unfold view, st1. simpl.
    by rewrite set_object_same.
  - intros st' H. injection H as <-.
    exact (distinct_push_new alloc alloc_fresh view st1 Hd).
Qed.

Lemma broadcast_read_back step st :
  distinct st →
  outcome_of (obj_broadcast step st) = broadcast step (view_of st)
  ∧ ∀ st', obj_broadcast step st = ObjOk st' → distinct st'.
Proof.
  intros Hd. unfold obj_broadcast, broadcast.
  rewrite view_top. destruct (obj_top st) as [t|] eqn:Ht; simpl; [|done].
  split.
  - by rewrite view_broadcast_fold, view_mutate.
  - intros st' H. injection H as <-. unfold distinct.
    by rewrite refs_broadcast_fold.
Qed.

Lemma pop_view_read_back step st :
  distinct st →
  outcome_of (obj_pop_view_from_stack step st)
  = pop_view_from_stack step (view_of st)
  ∧ ∀ st', obj_pop_view_from_stack step st = ObjOk st' → distinct st'.
Proof.
  intros Hd. unfold obj_pop_view_from_stack, pop_view_from_stack.
  rewrite view_top. destruct (obj_top st) as [t|] eqn:Ht; simpl; [|done].
  rewrite <- view_pop, view_top.
  pose proof (distinct_pop st Hd) as Hd1.
  destruct (obj_top (obj_pop st)) as [u|] eqn:Hu; simpl; [|done].
  set (st2 := obj_mutate u (λ v, set_next_node (next_node v + 1) v) (obj_pop st)).
  assert (Hd2 : distinct st2) by done.
  assert (Hu2 : obj_top st2 = Some u) by done.
  assert (Hne : t ≠ u).
  { destruct (obj_top_snoc st t Ht) as [l Hl].
    unfold obj_top, obj_pop in Hu. simpl in Hu.
    rewrite Hl, removelast_last in Hu. apply last_Some in Hu as [l' ->].
    unfold distinct in Hd. rewrite Hl in Hd.
    apply NoDup_app in Hd as (_ & Hnot & _). intros ->.
    apply (Hnot u); [apply elem_of_app; right|]; apply elem_of_cons; by left. }
  rewrite !(set_object_other u t) by done.
  rewrite <- (view_mutate (obj_pop st) u) by done. fold st2.
  rewrite view_top, Hu2. simpl.
  set (st3 := obj_select_output _ u _ st2).
  assert (Hrefs3 : frame_refs st3 = frame_refs st2) by apply refs_select_output.
  split.
  - rewrite view_mutate.
    + rewrite !view_route. unfold st3. by rewrite view_select_output.
    + unfold distinct. simpl. by rewrite Hrefs3.
    + unfold obj_top. simpl. by rewrite Hrefs3.
  - intros st' H. injection H as <-. unfold distinct. simpl. by rewrite Hrefs3.
Qed.

Lemma count_node_read_back step st :
  distinct st →
  outcome_of (obj_count_node step st) = count_node step (view_of st)
  ∧ ∀ st', obj_count_node step st = ObjOk st' → distinct st'.
Proof.
  intros Hd. unfold obj_count_node, count_node.
  rewrite view_top. destruct (obj_top st) as [t|] eqn:Ht; simpl; [|done].
  destruct (is_step_by_active_agent step (objects st t)); [|by split; [|intros ? [= <-]]].
  destruct (negb (is_jump step) && _); simpl.
  - split; [|by intros ? [= <-]].
    rewrite view_mutate; [|done|done]. by rewrite view_mutate.
  - split; [|by intros ? [= <-]]. by rewrite view_mutate.
Qed.

Lemma update_read_back step st :
  distinct st →
  outcome_of (obj_update alloc step st) = update step (view_of st)
  ∧ ∀ st', obj_update alloc step st = ObjOk st' → distinct st'.
Proof.
  intros Hd. unfold obj_update, update.
  rewrite view_top. destruct (obj_top st) as [t|] eqn:Ht; simpl; [|done].
  assert (Hdispatch :
    outcome_of (obj_dispatch alloc t step st) = dispatch step (view_of st)
    ∧ ∀ st', obj_dispatch alloc t step st = ObjOk st' → distinct st').
  { destruct step; simpl.
    - by apply put_new_view_read_back.
    - by apply pop_view_read_back.
    - by apply broadcast_read_back.
    - split; [by rewrite view_mutate | by intros ? [= <-]].
    - split; [by rewrite view_mutate | by intros ? [= <-]].
    - split; [by rewrite view_mutate | by intros ? [= <-]].
    - done. }
  destruct Hdispatch as [Hview Hdist].
  destruct (obj_dispatch alloc t step st) as [st1|e st1] eqn:E; simpl in Hview;
    rewrite <- Hview; [|done].
  by apply count_node_read_back, Hdist.
Qed.

Lemma run_updates_read_back l : ∀ st,
  distinct st →
  outcome_of (obj_run_updates alloc l st) = run_updates l (view_of st).
Proof.
  induction l as [|step l IH]; intros st Hd; simpl; [done|].
  destruct (update_read_back step st Hd) as [Hview Hdist].
  destruct (obj_update alloc step st) as [st1|e st1] eqn:E; simpl in Hview;
    rewrite <- Hview; [|done].
  by apply IH, Hdist.
Qed.

Lemma initial_read_back store :
  view_of (obj_initial alloc store) = initial_stack
  ∧ distinct (obj_initial alloc store).
Proof.
  split.
  - unfold obj_initial. by rewrite (view_push_new alloc alloc_fresh).
  - apply (distinct_push_new alloc alloc_fresh). constructor.
Qed.

(** What [compute] on references returns on a miss, read back by value,
    is what the fold of the value model gives for the steps. *)
Lemma compute_read_back tape store cache :
  cache !! tape_id tape = None →
  result_view (obj_compute alloc tape store cache)
  = match run_updates (tape_steps tape) initial_stack with
    | Ok s => inl s
    | Raised e _ => inr e
    end.
Proof.
  intros Hmiss. unfold obj_compute. rewrite Hmiss.
  destruct (initial_read_back store) as [Hinit Hd].
  pose proof (run_updates_read_back (tape_steps tape) _ Hd) as Hrun.
  rewrite Hinit in Hrun. rewrite <- Hrun.
  by destruct (obj_run_updates alloc (tape_steps tape) (obj_initial alloc store)).
Qed.
End Simulation.

(** C8.  Determinism.  Take two tapes of different identities with the
    same steps, and compute each without a cache hit: on any two stores
    of frame objects, with any two allocators (so the frames of the two
    results are objects of different identities), under any two caches.
    Then the two results are structurally equal: the frames read by value
    are the same, with the same contents and outputs, and
    [messages_by_agent] is the same; or both calls raise the same
    exception.  The result is the fold of [update] over the steps, and
    the same holds for two calls in a row in one store and one cache: the
    computation is a function of the step sequence alone. *)
Theorem compute_depends_on_the_steps_alone
    (alloc1 alloc2 : ObjState → ref) (tape1 tape2 : Tape)
    (store1 store2 : ref → TapeView)
    (cache1 cache2 : gmap Z (list ref * gmap string (list Step))) :
  (∀ st, alloc1 st ∉ frame_refs st) →
  (∀ st, alloc2 st ∉ frame_refs st) →
  tape_steps tape1 = tape_steps tape2 →
  tape_id tape1 ≠ tape_id tape2 →
  cache1 !! tape_id tape1 = None →
  cache2 !! tape_id tape2 = None →
  result_view (obj_compute alloc1 tape1 store1 cache1)
  = result_view (obj_compute alloc2 tape2 store2 cache2)
  ∧ result_view (obj_compute alloc1 tape1 store1 cache1)
    = match run_updates (tape_steps tape1) initial_stack with
      | Ok s => inl s
      | Raised e _ => inr e
      end
  ∧ (cache1 !! tape_id tape2 = None →
     result_view
       (obj_compute alloc1 tape2
          (obj_compute alloc1 tape1 store1 cache1).1.2
          (obj_compute alloc1 tape1 store1 cache1).2)
     = result_view (obj_compute alloc1 tape1 store1 cache1)).
Proof.
  intros Hfresh1 Hfresh2 Hsteps Hid Hmiss1 Hmiss2.
  rewrite (compute_read_back alloc1 Hfresh1 tape1 store1 cache1 Hmiss1).
  rewrite (compute_read_back alloc2 Hfresh2 tape2 store2 cache2 Hmiss2).
  rewrite <- Hsteps. split; [done|]. split; [done|].
  intros Hmiss12. rewrite compute_read_back; [by rewrite <- Hsteps | done |].
  unfold obj_compute. rewrite Hmiss1.
  destruct (obj_run_updates alloc1 (tape_steps tape1) (obj_initial alloc1 store1));
    simpl; [|done].
  by rewrite lookup_insert_ne.
Qed.

(** Two allocators: the next reference after the ones on the stack, and
    one further up. *)
Definition alloc_next (st : ObjState) : ref := S (list_max (frame_refs st)).
Definition alloc_far (st : ObjState) : ref := 7 + list_max (frame_refs st).

Lemma above_list_max (k : nat) (l : list nat) : S k + list_max l ∉ l.
Proof.
  intros Hin.
  assert (Hle : Forall (λ x, x ≤ list_max l) l) by (by apply list_max_le).
  rewrite Forall_forall in Hle. specialize (Hle _ Hin). lia.
Qed.

Lemma compute_depends_on_the_steps_alone_witness :
  result_view
    (obj_compute alloc_next (mkTape 1 call_and_return) (λ _, new_view "" "") ∅)
  = result_view
      (obj_compute alloc_far (mkTape 2 call_and_return)
         (λ _, add_step (Observation "obs" "stale") (new_view "old" "old")) ∅).
Proof.
  exact (proj1 (compute_depends_on_the_steps_alone alloc_next alloc_far
                  (mkTape 1 call_and_return) (mkTape 2 call_and_return)
                  (λ _, new_view "" "")
                  (λ _, add_step (Observation "obs" "stale") (new_view "old" "old"))
                  ∅ ∅
                  (λ st, above_list_max 0 (frame_refs st))
                  (λ st, above_list_max 6 (frame_refs st))
                  eq_refl ltac:(simpl; discriminate)
                  (lookup_empty _) (lookup_empty _))).
Defined.

(** The references of the stack that [compute] returned. *)
Definition result_refs
    (r : (list ref * gmap string (list Step) + Exn)
         * (ref → TapeView) * gmap Z (list ref * gmap string (list Step)))
    : list ref :=
  match r.1.1 with
  | inl (refs, _) => refs
  | inr _ => []
  end.

(** The two runs of the witness build their frames at different
    references. *)
Example witness_runs_use_different_objects :
  result_refs
    (obj_compute alloc_next (mkTape 1 call_and_return) (λ _, new_view "" "") ∅)
  = [1]
  ∧ result_refs
      (obj_compute alloc_far (mkTape 2 call_and_return)
         (λ _, add_step (Observation "obs" "stale") (new_view "old" "old")) ∅)
    = [7].
Proof. split; vm_compute; reflexivity. Qed.

(** Reading back by value needs the frames to be different objects: with
    one object twice on the stack, a [Jump] changes both entries, and the
    value model changes the last one only. *)
Example aliased_frames_do_not_read_back :
  let st := mkObjState (λ _, new_view "root" "root") [0; 0] ∅ in
  next_node <$> stack (view_of st) = [0; 0]%Z
  ∧ (∃ st', obj_update alloc_next (Jump "x/y" "" 5) st = ObjOk st'
            ∧ next_node <$> stack (view_of st') = [5; 5]%Z)
  ∧ (∃ s', update (Jump "x/y" "" 5) (view_of st) = Ok s'
           ∧ next_node <$> stack s' = [0; 5]%Z).
Proof.
  intros st. split; [reflexivity|]. split.
  - eexists. split; reflexivity.
  - eexists. split; reflexivity.
Qed.
